(** * holey: point generators and nearest-neighbour statistics

    A shallow embedding of the computational core of [src/App.tsx]
    (the functions [radius], [roundFloat], [generateSunflowerPoints],
    [generateLatticePoints], [generatePoints] and [computePointStats])
    together with the properties stated about them.

    Number model.  A JavaScript [number] is an IEEE-754 double.  The
    generators only ever see finite control values, and on finite values
    we read every arithmetic operation as the exact real operation: a
    finite [number] is an [R].  The loop counters, array lengths and the
    integer controls [n] and [layers] are [nat].  The statistics start
    from [Number.POSITIVE_INFINITY] and divide by possibly-zero values,
    so there a [number] is a real extended with the three non-finite
    doubles ([jsnum]).  Rounding error of a single operation, overflow
    and the sign of zero are not represented. *)

From Stdlib Require Import String.
From Stdlib Require Import Reals Lra Lia List Arith ZArith Bool.
From Stdlib Require Import Permutation Sorted.
Import ListNotations.

Local Open Scope R_scope.

(** ** Loops *)

(** [for (i = i0; cond(i); i = next(i)) acc = body(i, acc)], cut off
    after [fuel] tests of the condition.  Every use below supplies enough
    fuel for the condition itself to end the loop (lemmas [*_exits]). *)
Fixpoint for_loop {A : Type} (fuel : nat) (cond : nat -> bool)
    (next : nat -> nat) (body : nat -> A -> A) (i : nat) (acc : A) : A :=
  match fuel with
  | O => acc
  | S fuel' =>
      if cond i then for_loop fuel' cond next body (next i) (body i acc)
      else acc
  end.

(** [loop_exits fuel cond next i]: the condition becomes false within
    [fuel] tests, that is, the loop stops by itself. *)
Fixpoint loop_exits (fuel : nat) (cond : nat -> bool) (next : nat -> nat)
    (i : nat) : bool :=
  match fuel with
  | O => false
  | S fuel' => if cond i then loop_exits fuel' cond next (next i) else true
  end.

(** ** Built-ins on finite numbers *)

(** The comparison [x < y] of two finite numbers, as a boolean. *)
Definition Rltb (x y : R) : bool := if Rlt_dec x y then true else false.

(** [Math.round]: nearest integer, ties towards plus infinity. *)
Definition Math_round (x : R) : R := IZR (Zfloor (x + / 2)).

(** [Math.hypot] on two finite arguments. *)
Definition Math_hypot (a b : R) : R := sqrt (a * a + b * b).

(** [parseFloat(val.toFixed(prec))].  [toFixed] prints the magnitude
    rounded to [prec] decimals (the integer [m] with [m / 10^prec]
    nearest to it, the larger one on a tie) behind the sign, except that
    magnitudes from [10^21] on are printed by [ToString], which
    [parseFloat] reads back unchanged. *)
Definition roundFloat (val : R) (prec : nat) : R :=
  let a := Rabs val in
  if Rle_dec (10 ^ 21) a then val
  else
    let m := IZR (Zfloor (a * 10 ^ prec + / 2)) / 10 ^ prec in
    if Rlt_dec val 0 then - m else m.

(** ** Generators (src/App.tsx, lines 11-112) *)

Definition Point : Type := (R * R)%type.
Definition PointArray : Type := list Point.

(** [points.push(p)]. *)
Definition push (points : PointArray) (p : Point) : PointArray :=
  points ++ [p].

Definition radius (k n b : R) : R :=
  if Rltb (n - b) k then 1
  else sqrt (k - 0.5) / sqrt (n - (b + 1) / 2).

(** The local constants of [generateSunflowerPoints], named. *)
Definition phi : R := (1 + sqrt 5) / 2.

Definition sunflowerAngleStride (geodesic : bool) : R :=
  if geodesic then 360 * phi else (2 * PI) / phi ^ 2.

Definition sunflowerB (n : nat) (alpha : R) : R :=
  Math_round (alpha * sqrt (INR n)).

(** The angle [theta] handed to [Math.cos] and [Math.sin] at step [k]. *)
Definition sunflowerTheta (geodesic : bool) (k : nat) : R :=
  INR k * sunflowerAngleStride geodesic.

(** The pair [(x, y)] of step [k], before [roundFloat]. *)
Definition sunflowerXY (n : nat) (alpha : R) (geodesic : bool) (size : R)
    (k : nat) : Point :=
  let b := sunflowerB n alpha in
  let r := radius (INR k) (INR n) b * (size / 2) in
  let theta := sunflowerTheta geodesic k in
  let x := r * cos theta in
  let y := r * sin theta in
  (x, y).

Definition roundPoint (p : Point) : Point :=
  (roundFloat (fst p) 2, roundFloat (snd p) 2).

Definition generateSunflowerPoints (n : nat) (alpha : R) (geodesic : bool)
    (size : R) : PointArray :=
  for_loop (S n) (fun k => k <=? n)%nat S
    (fun k points =>
       push points (roundPoint (sunflowerXY n alpha geodesic size k)))
    1%nat [].

(** The loop bound [i < bound] for a real [bound]: the body runs for
    [i = 0, 1, ...] while [INR i < bound], that is [Zceil bound] times
    (lemma [Rltb_trip_count]). *)
Definition trip_count (bound : R) : nat := Z.to_nat (Zceil bound).

(** One ring of the lattice: the inner loop of [generateLatticePoints]. *)
Definition latticeTheta (nPerLayer twist : R) (layer i : nat) : R :=
  let pointsPerLayer := 1 + INR layer * nPerLayer in
  let angleStride := (2 * PI) / pointsPerLayer in
  INR i * angleStride + twist * INR layer * PI.

Definition latticeRadius (size : R) (layers layer : nat) : R :=
  (INR layer * size) / (2 * INR layers).

Definition latticeXY (size : R) (layers : nat) (nPerLayer twist : R)
    (layer i : nat) : Point :=
  let radius := latticeRadius size layers layer in
  let theta := latticeTheta nPerLayer twist layer i in
  let x := radius * cos theta in
  let y := radius * sin theta in
  (x, y).

(** The ring-by-ring sequence, before the trimming step (lines 67-78). *)
Definition latticeAllPoints (size : R) (layers : nat) (nPerLayer twist : R)
    : PointArray :=
  for_loop (S layers) (fun layer => layer <? layers)%nat S
    (fun layer points =>
       let pointsPerLayer := 1 + INR layer * nPerLayer in
       for_loop (S (trip_count pointsPerLayer))
         (fun i => Rltb (INR i) pointsPerLayer) S
         (fun i points =>
            push points
              (roundPoint (latticeXY size layers nPerLayer twist layer i)))
         0%nat points)
    0%nat [].

(** The trimming step (lines 79-88).  For [n = 0] the stride
    [Math.floor(points.length / 0)] is [Infinity]: the body runs for
    [i = 0] and [i += Infinity] ends the loop. *)
Definition downsample (points : PointArray) (n : nat) : PointArray :=
  if (n <? length points)%nat then
    match n with
    | O => push [] (nth 0 points (0, 0))
    | S _ =>
        let stride := (length points / n)%nat in
        for_loop (S (length points)) (fun i => i <? length points)%nat
          (fun i => i + stride)%nat
          (fun i newPoints => push newPoints (nth i points (0, 0)))
          0%nat []
    end
  else points.

Definition generateLatticePoints (n : nat) (size : R) (layers : nat)
    (nPerLayer twist : R) : PointArray :=
  downsample (latticeAllPoints size layers nPerLayer twist) n.

(** The fields of [GenProps] carry the prefix [gp_] so that they do not
    clash with the parameters [n], [size], ... of the generators. *)
Record GenProps : Type := mkGenProps {
  gp_n : nat;
  gp_alpha : R;
  gp_mode : string;
  gp_size : R;
  gp_layers : nat;
  gp_nPerLayer : R;
  gp_twist : R
}.

Definition generatePoints (genProps : GenProps) : PointArray :=
  let mode := gp_mode genProps in
  if (mode =? "sunflower")%string || (mode =? "sunflowerGeodesic")%string then
    generateSunflowerPoints (gp_n genProps) (gp_alpha genProps)
      (mode =? "sunflowerGeodesic")%string (gp_size genProps)
  else if (mode =? "lattice")%string then
    generateLatticePoints (gp_n genProps) (gp_size genProps)
      (gp_layers genProps) (gp_nPerLayer genProps) (gp_twist genProps)
  else [].

(** ** Numbers that may be non-finite *)

Inductive jsnum : Type :=
  | Fin (r : R)
  | PosInf
  | NegInf
  | NaN.

Definition js_add (a b : jsnum) : jsnum :=
  match a, b with
  | NaN, _ | _, NaN => NaN
  | Fin x, Fin y => Fin (x + y)
  | PosInf, NegInf | NegInf, PosInf => NaN
  | PosInf, _ | _, PosInf => PosInf
  | NegInf, _ | _, NegInf => NegInf
  end.

Definition js_sub (a b : jsnum) : jsnum :=
  match a, b with
  | NaN, _ | _, NaN => NaN
  | Fin x, Fin y => Fin (x - y)
  | PosInf, PosInf | NegInf, NegInf => NaN
  | PosInf, _ | _, NegInf => PosInf
  | NegInf, _ | _, PosInf => NegInf
  end.

Definition js_div (a b : jsnum) : jsnum :=
  match a, b with
  | NaN, _ | _, NaN => NaN
  | Fin x, Fin y =>
      if Req_dec_T y 0 then
        if Rlt_dec 0 x then PosInf
        else if Rlt_dec x 0 then NegInf else NaN
      else Fin (x / y)
  | Fin _, _ => Fin 0
  | PosInf, Fin y => if Rlt_dec y 0 then NegInf else PosInf
  | NegInf, Fin y => if Rlt_dec y 0 then PosInf else NegInf
  | _, _ => NaN
  end.

Definition js_abs (a : jsnum) : jsnum :=
  match a with
  | Fin x => Fin (Rabs x)
  | PosInf | NegInf => PosInf
  | NaN => NaN
  end.

(** [a < b]; false as soon as one side is [NaN]. *)
Definition js_ltb (a b : jsnum) : bool :=
  match a, b with
  | NaN, _ | _, NaN => false
  | Fin x, Fin y => Rltb x y
  | NegInf, NegInf | PosInf, _ | _, NegInf => false
  | _, _ => true
  end.

(** [Math.min(...l)] and [Math.max(...l)]: the empty call gives the
    neutral infinity, one [NaN] argument makes the result [NaN]. *)
Definition js_min2 (m x : jsnum) : jsnum :=
  match m, x with
  | NaN, _ | _, NaN => NaN
  | _, _ => if js_ltb x m then x else m
  end.

Definition js_max2 (m x : jsnum) : jsnum :=
  match m, x with
  | NaN, _ | _, NaN => NaN
  | _, _ => if js_ltb m x then x else m
  end.

Definition Math_min (l : list jsnum) : jsnum := fold_left js_min2 l PosInf.
Definition Math_max (l : list jsnum) : jsnum := fold_left js_max2 l NegInf.

(** [Array.prototype.sort(comparefn)].  The comparator's value [v]
    orders [a] after [b] exactly when [v > 0] (a [NaN] value counts as
    0).  The standard leaves the algorithm open; a stable insertion sort
    stands for it, and on a list without [NaN] every conforming sort
    returns the same sequence of numbers (lemmas [Array_sort_perm] and
    [Array_sort_ascending]). *)
Fixpoint sort_insert (comparefn : jsnum -> jsnum -> jsnum) (x : jsnum)
    (l : list jsnum) : list jsnum :=
  match l with
  | [] => [x]
  | y :: t =>
      if js_ltb (Fin 0) (comparefn x y) then y :: sort_insert comparefn x t
      else x :: l
  end.

Definition Array_sort (comparefn : jsnum -> jsnum -> jsnum)
    (l : list jsnum) : list jsnum :=
  fold_right (sort_insert comparefn) [] l.

(** [l.map((x, i) => f(x, i))]. *)
Fixpoint mapi_from {A B : Type} (i : nat) (f : A -> nat -> B) (l : list A)
    : list B :=
  match l with
  | [] => []
  | x :: t => f x i :: mapi_from (S i) f t
  end.

Definition mapi {A B : Type} (f : A -> nat -> B) (l : list A) : list B :=
  mapi_from 0 f l.

(** ** Statistics (src/App.tsx, lines 180-210) *)

Record PointStats : Type := mkPointStats {
  average : jsnum;
  median : option jsnum;   (* [None] is JavaScript's [undefined] *)
  minimum : jsnum;
  maximum : jsnum;
  maxDiffFromAverageNorm : jsnum
}.

(** The callback of [points.map] (lines 182-193): the distance from
    [point], which sits at index [i], to its nearest other point. *)
Definition nearestDistance (points : PointArray) (size : R)
    (point : Point) (i : nat) : jsnum :=
  for_loop (S (length points)) (fun j => j <? length points)%nat S
    (fun j minDistance =>
       if (i =? j)%nat then minDistance
       else
         let '(x, y) := nth j points (0, 0) in
         let distance :=
           js_div (Fin (Math_hypot (fst point - x) (snd point - y)))
                  (Fin size) in
         if js_ltb distance minDistance then distance else minDistance)
    0%nat PosInf.

Definition nearestDistances (points : PointArray) (size : R) : list jsnum :=
  mapi (nearestDistance points size) points.

Definition computePointStats (points : PointArray) (size : R) : PointStats :=
  let distances := nearestDistances points size in
  let minimum := Math_min distances in
  let maximum := Math_max distances in
  let average :=
    js_div (fold_left (fun a b => js_add a b) distances (Fin 0))
           (Fin (INR (length points))) in
  let sorted := Array_sort (fun a b => js_sub a b) distances in
  let median := nth_error sorted (length sorted / 2) in
  let maxDiffFromAverageNorm :=
    js_div
      (Math_max (map (fun distance => js_abs (js_sub distance average))
                     distances))
      average in
  mkPointStats average median minimum maximum maxDiffFromAverageNorm.

(** ** Renderer (src/App.tsx, lines 114-178) *)

(** The two SVG shapes the renderer draws.  An absent attribute is
    [None]. *)
Inductive SvgShape : Type :=
  | Circle (cx cy r : R) (fill stroke : option string)
  | Line (x1 y1 x2 y2 : R) (stroke : string).

Record StyleProps : Type := mkStyleProps {
  sp_center : bool;
  sp_crosshair : bool
}.

(** The fragment returned by [Dot]: its children in document order,
    the [false] children of [crosshair && ...] and [center && ...] left
    out as React leaves them out. *)
Definition Dot (radius cx cy : R) (center crosshair : bool)
    : list SvgShape :=
  let dotStyle :=
    if negb (center || crosshair) then (Some "black"%string, None)
    else (Some "none"%string, Some "black"%string) in
  let crosshairSize := radius * 0.75 in
  [Circle cx cy radius (fst dotStyle) (snd dotStyle)]
  ++ (if crosshair then
        [Line (cx - crosshairSize) cy (cx + crosshairSize) cy "red";
         Line cx (cy - crosshairSize) cx (cy + crosshairSize) "red"]
      else [])
  ++ (if center then [Circle cx cy 0.1 None (Some "blue"%string)] else []).

(** The [svg] element of [DotArrangement]: the numbers of its [viewBox],
    its [width] and [height], the offsets of the group's [translate],
    and the group's children, one [Dot] fragment per point with its
    [key]. *)
Record SvgDrawing : Type := mkSvgDrawing {
  svg_viewBox : R * R * R * R;
  svg_width : R;
  svg_height : R;
  svg_translate : R * R;
  svg_dots : list (nat * list SvgShape)
}.

Definition DotArrangement (size radius : R) (points : PointArray)
    (styleProps : StyleProps) : SvgDrawing :=
  mkSvgDrawing (0, 0, size, size) size size (size / 2, size / 2)
    (mapi (fun p i =>
             (i, Dot radius (fst p) (snd p)
                   (sp_center styleProps) (sp_crosshair styleProps)))
          points).

(** ** The computation of [App] (src/App.tsx, lines 212-265) *)

(** The values delivered by [useControls]. *)
Record Controls : Type := mkControls {
  c_adjustSizeToFitRadius : bool;
  c_alpha : R;
  c_center : bool;
  c_crosshair : bool;
  c_layers : nat;
  c_mode : string;
  c_n : nat;
  c_radius : R;
  c_size : R;
  c_svg : bool;
  c_twist : R;
  c_nPerLayer : R
}.

(** [genProps] after the optional [genProps.size -= radius * 2]. *)
Definition App_genProps (c : Controls) : GenProps :=
  let genProps :=
    mkGenProps (c_n c) (c_alpha c) (c_mode c) (c_size c) (c_layers c)
      (c_nPerLayer c) (c_twist c) in
  if c_adjustSizeToFitRadius c then
    mkGenProps (gp_n genProps) (gp_alpha genProps) (gp_mode genProps)
      (gp_size genProps - c_radius c * 2) (gp_layers genProps)
      (gp_nPerLayer genProps) (gp_twist genProps)
  else genProps.

Definition App_points (c : Controls) : PointArray :=
  generatePoints (App_genProps c).

Definition App_pointStats (c : Controls) : PointStats :=
  computePointStats (App_points c) (c_size c).

Definition App_comp (c : Controls) : SvgDrawing :=
  DotArrangement (c_size c) (c_radius c) (App_points c)
    (mkStyleProps (c_center c) (c_crosshair c)).

(** ** The table-driven lattice of the earlier revision
       (src/unnamed/part_000, lines 5-75) *)

Definition hexLatticeNumbers : list nat :=
  [1; 6; 12; 18; 24; 30; 36; 42; 48; 54; 60; 66; 72; 78; 84; 90; 96; 102;
   108; 114; 120; 126; 132; 138; 144; 150; 156; 162; 168; 174; 180; 186;
   192; 198; 204; 210; 216; 222; 228; 234; 240; 246; 252; 258; 264; 270;
   276; 282; 288; 294; 300; 306; 312; 318; 324; 330; 336; 342; 348]%nat.

(** [hexLatticeNumbers[layer]], with 0 for the [undefined] of an index
    outside the table: both are falsy in [if (!pointsPerLayer) break]. *)
Definition hexPointsPerLayer (layer : nat) : nat :=
  nth layer hexLatticeNumbers 0%nat.

Definition hexXY (size : R) (layers layer i : nat) : Point :=
  let pointsPerLayer := hexPointsPerLayer layer in
  let angleStride := (2 * PI) / INR pointsPerLayer in
  let radius := (INR layer * size) / (2 * INR layers) in
  let theta := INR i * angleStride in
  let x := radius * cos theta in
  let y := radius * sin theta in
  (x, y).

(** The [break] at the top of the body is part of the loop test. *)
Definition generateHexLatticePoints (n : nat) (size : R) (layers : nat)
    : PointArray :=
  for_loop (S layers)
    (fun layer =>
       (layer <? layers)%nat && negb (hexPointsPerLayer layer =? 0)%nat)
    S
    (fun layer points =>
       let pointsPerLayer := hexPointsPerLayer layer in
       for_loop (S pointsPerLayer) (fun i => i <? pointsPerLayer)%nat S
         (fun i points => push points (roundPoint (hexXY size layers layer i)))
         0%nat points)
    0%nat [].

(** ** Further notions used in the statements *)

(** The distance between the points at indices [i] and [j], divided by
    [size], for a non-zero [size]. *)
Definition pairDistance (points : PointArray) (size : R) (i j : nat) : R :=
  let p := nth i points (0, 0) in
  let q := nth j points (0, 0) in
  Math_hypot (fst p - fst q) (snd p - snd q) / size.

(** All shapes of a drawing, in document order. *)
Definition svg_shapes (d : SvgDrawing) : list SvgShape :=
  concat (map snd (svg_dots d)).

(** ** Auxiliary notions used in the statements *)

(** A point whose two coordinates are fixed by rounding to 2 decimals. *)
Definition rounded2 (p : Point) : Prop :=
  roundFloat (fst p) 2 = fst p /\ roundFloat (snd p) 2 = snd p.

(** The points of ring [layer], in the order of the inner loop. *)
Definition latticeRing (size : R) (layers : nat) (nPerLayer twist : R)
    (layer : nat) : PointArray :=
  map (fun i => roundPoint (latticeXY size layers nPerLayer twist layer i))
      (seq 0 (trip_count (1 + INR layer * nPerLayer))).

(** Number of indices i, i + stride, i + 2 stride, ... below [i + a]. *)
Definition strided_count (a stride : nat) : nat :=
  match a with
  | O => O
  | S a' => S (a' / stride)
  end.

(** The elements of [points] at indices 0, stride, 2 stride, ... *)
Definition every_nth (points : PointArray) (stride : nat) : PointArray :=
  map (fun j => nth (j * stride) points (0, 0))
      (seq 0 (strided_count (length points) stride)).

(** A whole number of hundredths: a number with at most two decimals. *)
Definition two_decimals (c : R) : Prop := exists z : Z, c = IZR z / 100.

(** [a <= b] on numbers, read as "not b < a". *)
Definition js_le (a b : jsnum) : Prop := js_ltb b a = false.

Definition not_NaN (a : jsnum) : Prop := a <> NaN.

(** Four points on the x axis, used as a test input for the statistics. *)
Definition fourPoints : PointArray := [(0, 0); (1, 0); (3, 0); (6, 0)].

(** * Properties *)

(** ** Counting loops *)

Section Loops.
Context {A : Type}.
Variables (cond : nat -> bool) (body : nat -> A -> A).

(** A loop whose condition holds on [lo, lo + m) and fails at [lo + m]
    runs its body on exactly those counters, whatever fuel beyond [m]
    it is given. *)
Lemma for_loop_range (m : nat) :
  forall fuel lo acc,
    (m < fuel)%nat ->
    (forall j, (j < m)%nat -> cond (lo + j) = true) ->
    cond (lo + m) = false ->
    for_loop fuel cond S body lo acc
    = fold_left (fun a k => body k a) (seq lo m) acc.
Proof.
  induction m as [|m IH]; intros fuel lo acc Hf Ht Hx.
  - destruct fuel as [|fuel]; [lia|]. simpl.
    rewrite Nat.add_0_r in Hx. now rewrite Hx.
  - destruct fuel as [|fuel]; [lia|]. simpl.
    rewrite <- (Nat.add_0_r lo) at 1. rewrite (Ht 0%nat) by lia.
    apply IH; [lia| |].
    + intros j Hj. replace (S lo + j)%nat with (lo + S j)%nat by lia.
      apply Ht; lia.
    + now replace (S lo + m)%nat with (lo + S m)%nat by lia.
Qed.

Lemma loop_exits_range (m : nat) :
  forall fuel lo,
    (m < fuel)%nat ->
    (forall j, (j < m)%nat -> cond (lo + j) = true) ->
    cond (lo + m) = false ->
    loop_exits fuel cond S lo = true.
Proof.
  induction m as [|m IH]; intros fuel lo Hf Ht Hx.
  - destruct fuel as [|fuel]; [lia|]. simpl.
    rewrite Nat.add_0_r in Hx. now rewrite Hx.
  - destruct fuel as [|fuel]; [lia|]. simpl.
    rewrite <- (Nat.add_0_r lo) at 1. rewrite (Ht 0%nat) by lia.
    apply IH; [lia| |].
    + intros j Hj. replace (S lo + j)%nat with (lo + S j)%nat by lia.
      apply Ht; lia.
    + now replace (S lo + m)%nat with (lo + S m)%nat by lia.
Qed.

(** Fuel beyond the point where the loop stops changes nothing. *)
Lemma for_loop_more_fuel (next : nat -> nat) :
  forall fuel extra i acc,
    loop_exits fuel cond next i = true ->
    for_loop (fuel + extra) cond next body i acc
    = for_loop fuel cond next body i acc.
Proof.
  induction fuel as [|fuel IH]; intros extra i acc H; simpl in *.
  - discriminate.
  - destruct (cond i); [now apply IH | reflexivity].
Qed.
End Loops.

Lemma fold_left_push (f : nat -> Point) (l : list nat) (acc : PointArray) :
  fold_left (fun a k => push a (f k)) l acc = acc ++ map f l.
Proof.
  revert acc. induction l as [|k l IH]; intros acc; simpl.
  - now rewrite app_nil_r.
  - rewrite IH. unfold push. now rewrite <- app_assoc.
Qed.

(** The test [i < bound] against a real bound holds for the first
    [trip_count bound] counters and for no other. *)
Lemma Rltb_trip_count (bound : R) (i : nat) :
  Rltb (INR i) bound = true <-> (i < trip_count bound)%nat.
Proof.
  unfold Rltb, trip_count.
  pose proof (Zceil_bound bound) as [Hlo Hhi].
  rewrite INR_IZR_INZ.
  destruct (Rlt_dec (IZR (Z.of_nat i)) bound) as [Hlt|Hge]; split; intro H;
    try reflexivity; try discriminate.
  - assert (Z.of_nat i < Zceil bound)%Z by (apply lt_IZR; lra). lia.
  - exfalso. apply Hge.
    assert (Z.of_nat i <= Zceil bound - 1)%Z as Hz by lia.
    apply IZR_le in Hz. rewrite minus_IZR in Hz. lra.
Qed.

(** ** Sunflower generator *)

Lemma generateSunflowerPoints_map (n : nat) (alpha : R) (geodesic : bool)
    (size : R) :
  generateSunflowerPoints n alpha geodesic size
  = map (fun k => roundPoint (sunflowerXY n alpha geodesic size k)) (seq 1 n).
Proof.
  unfold generateSunflowerPoints.
  rewrite (for_loop_range _ _ n) by
    (try lia; try (intros j Hj; apply Nat.leb_le; lia);
     apply Nat.leb_gt; lia).
  now rewrite fold_left_push.
Qed.

(** The loop of [generateSunflowerPoints] stops by its own test. *)
Lemma generateSunflowerPoints_exits (n : nat) :
  loop_exits (S n) (fun k => k <=? n)%nat S 1%nat = true.
Proof.
  apply (loop_exits_range _ n); [lia | |].
  - intros j Hj; apply Nat.leb_le; lia.
  - apply Nat.leb_gt; lia.
Qed.

(** C4: for every point count [n] (zero included), every [alpha] and
    [size] and both sunflower modes, the generator returns exactly [n]
    points: the point of step [k] for k = 1, 2, ..., n in that order; for
    n = 0 the result is empty. *)
Theorem C4_sunflower_exactly_n (n : nat) (alpha : R) (geodesic : bool)
    (size : R) :
  length (generateSunflowerPoints n alpha geodesic size) = n
  /\ generateSunflowerPoints n alpha geodesic size
     = map (fun k => roundPoint (sunflowerXY n alpha geodesic size k))
           (seq 1 n)
  /\ generateSunflowerPoints 0 alpha geodesic size = [].
Proof.
  rewrite generateSunflowerPoints_map.
  repeat split.
  now rewrite length_map, length_seq.
Qed.


Lemma Math_round_nonneg (x : R) : 0 <= x -> 0 <= Math_round x.
Proof.
  intro H. unfold Math_round. apply IZR_le, Zfloor_lub. lra.
Qed.

Lemma Rltb_true (x y : R) : x < y -> Rltb x y = true.
Proof. intro H. unfold Rltb. destruct (Rlt_dec x y); [reflexivity | lra]. Qed.

Lemma Rltb_false (x y : R) : y <= x -> Rltb x y = false.
Proof. intro H. unfold Rltb. destruct (Rlt_dec x y); [lra | reflexivity]. Qed.

Lemma hypot_polar (r theta : R) :
  Math_hypot (r * cos theta) (r * sin theta) = Rabs r.
Proof.
  unfold Math_hypot.
  replace (r * cos theta * (r * cos theta) + r * sin theta * (r * sin theta))
    with (Rsqr r * (Rsqr (sin theta) + Rsqr (cos theta)))
    by (unfold Rsqr; ring).
  rewrite sin2_cos2, Rmult_1_r. apply sqrt_Rsqr_abs.
Qed.



Lemma phi_pos : 0 < phi.
Proof. unfold phi. pose proof (sqrt_pos 5). lra. Qed.

(** C3 as stated fails: at step k = 1 of the geodesic mode the angle
    handed to the trigonometric functions is 360 * phi, not
    360 * phi * pi / 180. *)
Lemma C3_geodesic_angle_not_converted :
  sunflowerTheta true 1 <> INR 1 * 360 * phi * PI / 180.
Proof.
  unfold sunflowerTheta, sunflowerAngleStride. simpl INR.
  pose proof phi_pos. pose proof PI_4. pose proof PI_RGT_0.
  intro E. nra.
Qed.

(** C3, amended: in the geodesic mode the angle of step [k] is
    k * 360 * phi, used as it is in [cos] and [sin] (no conversion from
    degrees); the plain mode uses k * (2 * pi / phi^2).  Every emitted
    point is the rounded pair r * cos theta, r * sin theta for that
    angle. *)
Theorem C3_angle_stride (n : nat) (alpha size : R) (geodesic : bool) :
  let stride := if geodesic then 360 * phi else 2 * PI / phi ^ 2 in
  generateSunflowerPoints n alpha geodesic size
  = map (fun k =>
           let r := radius (INR k) (INR n) (sunflowerB n alpha) * (size / 2) in
           (roundFloat (r * cos (INR k * stride)) 2,
            roundFloat (r * sin (INR k * stride)) 2))
        (seq 1 n).
Proof.
  cbv zeta. rewrite generateSunflowerPoints_map.
  apply map_ext. intro k.
  unfold roundPoint, sunflowerXY, sunflowerTheta, sunflowerAngleStride.
  reflexivity.
Qed.

(** ** Dispatch *)

(** C8: a mode outside the three recognised names gives the empty point
    set. *)
Theorem C8_unrecognized_mode_empty (genProps : GenProps) :
  gp_mode genProps <> "sunflower"%string ->
  gp_mode genProps <> "sunflowerGeodesic"%string ->
  gp_mode genProps <> "lattice"%string ->
  generatePoints genProps = [].
Proof.
  intros H1 H2 H3. unfold generatePoints. cbv zeta.
  apply String.eqb_neq in H1, H2, H3.
  now rewrite H1, H2, H3.
Qed.

Lemma C8_unrecognized_mode_empty_witness :
  generatePoints (mkGenProps 50 2 "hexLattice" 500 5 6 0) = [].
Proof.
  apply C8_unrecognized_mode_empty; simpl; discriminate.
Defined.

(** ** Rounding *)

(** A non-negative multiple of [10^-prec], with either sign, is left
    alone by [roundFloat]. *)
Lemma roundFloat_grid (z : Z) (prec : nat) :
  (0 <= z)%Z ->
  roundFloat (IZR z / 10 ^ prec) prec = IZR z / 10 ^ prec
  /\ roundFloat (- (IZR z / 10 ^ prec)) prec = - (IZR z / 10 ^ prec).
Proof.
  intro Hz.
  assert (HP : 0 < 10 ^ prec) by (apply pow_lt; lra).
  assert (Hm : 0 <= IZR z / 10 ^ prec).
  { apply Rmult_le_pos; [now apply IZR_le | left; now apply Rinv_0_lt_compat]. }
  assert (Hfl : Zfloor (IZR z / 10 ^ prec * 10 ^ prec + / 2) = z).
  { apply Zfloor_eq.
    replace (IZR z / 10 ^ prec * 10 ^ prec) with (IZR z) by (field; lra).
    lra. }
  split; unfold roundFloat.
  - rewrite (Rabs_pos_eq _ Hm), Hfl.
    destruct (Rle_dec (10 ^ 21) (IZR z / 10 ^ prec)); [reflexivity|].
    destruct (Rlt_dec (IZR z / 10 ^ prec) 0); [lra | reflexivity].
  - rewrite Rabs_Ropp, (Rabs_pos_eq _ Hm), Hfl.
    destruct (Rle_dec (10 ^ 21) (IZR z / 10 ^ prec)); [reflexivity|].
    destruct (Rlt_dec (- (IZR z / 10 ^ prec)) 0); [reflexivity | lra].
Qed.

Lemma roundFloat_idempotent (val : R) (prec : nat) :
  roundFloat (roundFloat val prec) prec = roundFloat val prec.
Proof.
  assert (HP : 0 < 10 ^ prec) by (apply pow_lt; lra).
  unfold roundFloat at 2 3.
  destruct (Rle_dec (10 ^ 21) (Rabs val)) as [Hbig|Hsmall].
  - unfold roundFloat.
    destruct (Rle_dec (10 ^ 21) (Rabs val)); [reflexivity | contradiction].
  - assert (Hz : (0 <= Zfloor (Rabs val * 10 ^ prec + / 2))%Z).
    { apply Zfloor_lub. pose proof (Rabs_pos val). nra. }
    destruct (roundFloat_grid _ prec Hz) as [Hp Hn].
    cbv zeta. destruct (Rlt_dec val 0); [exact Hn | exact Hp].
Qed.

Lemma roundPoint_rounded2 (p : Point) : rounded2 (roundPoint p).
Proof.
  unfold rounded2, roundPoint; simpl; split; apply roundFloat_idempotent.
Qed.

(** ** Lattice generator *)

Lemma fold_left_append (g : nat -> PointArray)
    (body : nat -> PointArray -> PointArray) :
  (forall k a, body k a = a ++ g k) ->
  forall l acc, fold_left (fun a k => body k a) l acc = acc ++ flat_map g l.
Proof.
  intros Hb l. induction l as [|k l IH]; intros acc; simpl.
  - now rewrite app_nil_r.
  - now rewrite IH, Hb, <- app_assoc.
Qed.

Lemma Rltb_trip_count_exit (bound : R) :
  Rltb (INR (trip_count bound)) bound = false.
Proof.
  destruct (Rltb (INR (trip_count bound)) bound) eqn:E; [|reflexivity].
  apply Rltb_trip_count in E. lia.
Qed.

(** The inner loop appends one ring and stops by its own test. *)
Lemma lattice_inner_loop (size : R) (layers : nat) (nPerLayer twist : R)
    (layer : nat) (points : PointArray) :
  let pointsPerLayer := 1 + INR layer * nPerLayer in
  for_loop (S (trip_count pointsPerLayer))
    (fun i => Rltb (INR i) pointsPerLayer) S
    (fun i points =>
       push points (roundPoint (latticeXY size layers nPerLayer twist layer i)))
    0%nat points
  = points ++ latticeRing size layers nPerLayer twist layer
  /\ loop_exits (S (trip_count pointsPerLayer))
       (fun i => Rltb (INR i) pointsPerLayer) S 0%nat = true.
Proof.
  cbv zeta. split.
  - rewrite (for_loop_range _ _ (trip_count (1 + INR layer * nPerLayer)));
      [now rewrite fold_left_push | lia | | apply Rltb_trip_count_exit].
    intros j Hj. now apply Rltb_trip_count.
  - apply (loop_exits_range _ (trip_count (1 + INR layer * nPerLayer)));
      [lia | | apply Rltb_trip_count_exit].
    intros j Hj. now apply Rltb_trip_count.
Qed.

(** The untrimmed sequence is the concatenation of the rings 0, 1, ...,
    layers - 1. *)
Lemma latticeAllPoints_rings (size : R) (layers : nat) (nPerLayer twist : R) :
  latticeAllPoints size layers nPerLayer twist
  = flat_map (latticeRing size layers nPerLayer twist) (seq 0 layers).
Proof.
  unfold latticeAllPoints.
  rewrite (for_loop_range _ _ layers) by
    (try lia; try (intros j Hj; apply Nat.ltb_lt; lia);
     apply Nat.ltb_ge; lia).
  rewrite (fold_left_append (latticeRing size layers nPerLayer twist));
    [reflexivity|].
  intros k a. apply lattice_inner_loop.
Qed.

Lemma latticeAllPoints_exits (layers : nat) :
  loop_exits (S layers) (fun layer => layer <? layers)%nat S 0%nat = true.
Proof.
  apply (loop_exits_range _ layers); [lia | |].
  - intros j Hj; apply Nat.ltb_lt; lia.
  - apply Nat.ltb_ge; lia.
Qed.

(** ** Invariants of loops *)

Lemma for_loop_invariant {A : Type} (P : A -> Prop) (cond : nat -> bool)
    (next : nat -> nat) (body : nat -> A -> A) :
  (forall i acc, cond i = true -> P acc -> P (body i acc)) ->
  forall fuel i acc, P acc -> P (for_loop fuel cond next body i acc).
Proof.
  intros Hstep fuel. induction fuel as [|fuel IH]; intros i acc Hacc; simpl.
  - exact Hacc.
  - destruct (cond i) eqn:E; [|exact Hacc].
    apply IH. now apply Hstep.
Qed.

(** The trimming step only returns points of its input. *)
Lemma downsample_incl (points : PointArray) (n : nat) :
  incl (downsample points n) points.
Proof.
  unfold downsample.
  destruct (n <? length points)%nat eqn:Hn; [|apply incl_refl].
  apply Nat.ltb_lt in Hn.
  destruct n as [|n].
  - intros p [Hp|[]]. subst p. now apply nth_In.
  - apply (for_loop_invariant (fun l => incl l points)).
    + intros i acc Hi Hacc. apply Nat.ltb_lt in Hi.
      unfold push. apply incl_app; [exact Hacc|].
      intros p [Hp|[]]. subst p. now apply nth_In.
    + intros p [].
Qed.

(** ** Points stay inside the circle *)

Lemma radius_bounds (k n : nat) (b : R) :
  (1 <= k)%nat -> 0 <= b -> 0 <= radius (INR k) (INR n) b <= 1.
Proof.
  intros Hk Hb. unfold radius, Rltb.
  destruct (Rlt_dec (INR n - b) (INR k)) as [Hlt|Hge]; [lra|].
  assert (1 <= INR k) by (change 1 with (INR 1); now apply le_INR).
  assert (Hle : INR k - 0.5 <= INR n - (b + 1) / 2) by lra.
  assert (Hnum : 0 < sqrt (INR k - 0.5)) by (apply sqrt_lt_R0; lra).
  pose proof (sqrt_le_1_alt _ _ Hle) as Hs.
  assert (Hden : 0 < sqrt (INR n - (b + 1) / 2)) by lra.
  split.
  - apply Rmult_le_pos; [lra | left; now apply Rinv_0_lt_compat].
  - apply (Rmult_le_reg_r (sqrt (INR n - (b + 1) / 2))); [exact Hden|].
    unfold Rdiv. rewrite Rmult_assoc, Rinv_l by lra. lra.
Qed.

Lemma sunflowerB_nonneg (n : nat) (alpha : R) :
  0 <= alpha -> 0 <= sunflowerB n alpha.
Proof.
  intro Ha. apply Math_round_nonneg.
  apply Rmult_le_pos; [exact Ha | apply sqrt_pos].
Qed.

Lemma latticeRadius_bounds (size : R) (layers layer : nat) :
  (layer < layers)%nat -> 0 < size ->
  0 <= latticeRadius size layers layer < size / 2.
Proof.
  intros Hl Hs. unfold latticeRadius.
  assert (H0 : 0 <= INR layer) by apply pos_INR.
  assert (H1 : INR layer < INR layers) by now apply lt_INR.
  assert (H2 : 0 < / (2 * INR layers)) by (apply Rinv_0_lt_compat; lra).
  split.
  - apply Rmult_le_pos; [nra | lra].
  - apply (Rmult_lt_reg_r (2 * INR layers)); [lra|].
    unfold Rdiv at 1. rewrite Rmult_assoc, Rinv_l by lra. nra.
Qed.

(** C10 as stated fails for a size that is not positive.  [App] hands
    the generator size - 2 * radius, which is -20 for size 100, dot
    radius 60 and [adjustSizeToFitRadius]; there ring 4 of 5 has radius
    -8, not below size/2 = -10; and for size 0 every ring radius is 0,
    not below 0. *)
Lemma C10_lattice_radius_nonpositive_size :
  gp_size (App_genProps
             (mkControls true 2 false false 5 "lattice" 50 60 100 false 0 6))
  = -20
  /\ latticeRadius (-20) 5 4 = -8
  /\ ~ latticeRadius (-20) 5 4 < -20 / 2
  /\ ~ latticeRadius 0 5 4 < 0 / 2.
Proof.
  assert (H20 : latticeRadius (-20) 5 4 = -8)
    by (unfold latticeRadius; simpl; field).
  assert (H0 : latticeRadius 0 5 4 = 0)
    by (unfold latticeRadius; simpl; field).
  split; [simpl; lra|]. split; [exact H20|].
  rewrite H20, H0. split; lra.
Qed.

(** C10, amended: before rounding, every generated point is inside or
    on the circle of radius size/2 around the origin, for a positive
    size in lattice mode.  Sunflower modes: for k in [1, n] and the
    boundary count b = round(alpha * sqrt n) of any alpha >= 0, the
    radius factor is at most 1, so the point is within |size|/2 of the
    origin.  Lattice mode: for a positive size every ring radius
    layer * size / (2 * layers) with layer < layers is strictly below
    size/2, and so is the distance of every point of that ring. *)
Theorem C10_points_inside_circle :
  (forall (n k : nat) (alpha : R),
      (1 <= k <= n)%nat -> 0 <= alpha ->
      radius (INR k) (INR n) (sunflowerB n alpha) <= 1)
  /\ (forall (n k : nat) (alpha size : R) (geodesic : bool),
      (1 <= k <= n)%nat -> 0 <= alpha ->
      let p := sunflowerXY n alpha geodesic size k in
      Math_hypot (fst p) (snd p) <= Rabs (size / 2))
  /\ (forall (size : R) (layers layer : nat),
      (layer < layers)%nat -> 0 < size ->
      latticeRadius size layers layer < size / 2)
  /\ (forall (size : R) (layers layer i : nat) (nPerLayer twist : R),
      (layer < layers)%nat -> 0 < size ->
      let p := latticeXY size layers nPerLayer twist layer i in
      Math_hypot (fst p) (snd p) < size / 2).
Proof.
  repeat split.
  - intros n k alpha [Hk _] Ha.
    apply radius_bounds; [exact Hk | now apply sunflowerB_nonneg].
  - intros n k alpha size geodesic [Hk _] Ha. cbv zeta.
    unfold sunflowerXY. cbv zeta. simpl fst. simpl snd.
    rewrite hypot_polar, Rabs_mult.
    pose proof (radius_bounds k n (sunflowerB n alpha) Hk
                  (sunflowerB_nonneg n alpha Ha)) as [Hr0 Hr1].
    rewrite (Rabs_pos_eq _ Hr0).
    pose proof (Rabs_pos (size / 2)). nra.
  - intros size layers layer Hl Hs. now apply latticeRadius_bounds.
  - intros size layers layer i nPerLayer twist Hl Hs. cbv zeta.
    unfold latticeXY. cbv zeta. simpl fst. simpl snd.
    rewrite hypot_polar.
    destruct (latticeRadius_bounds size layers layer Hl Hs) as [H0 H1].
    now rewrite Rabs_pos_eq.
Qed.

Lemma C10_points_inside_circle_witness :
  radius (INR 2) (INR 3) (sunflowerB 3 0) <= 1
  /\ (let p := sunflowerXY 3 0 false 100 2 in
      Math_hypot (fst p) (snd p) <= Rabs (100 / 2))
  /\ latticeRadius 100 5 4 < 100 / 2
  /\ (let p := latticeXY 100 5 6 0 4 1 in
      Math_hypot (fst p) (snd p) < 100 / 2).
Proof.
  destruct C10_points_inside_circle as (Hr & Hs & Hl & Hp).
  split; [|split; [|split]].
  - apply (Hr 3%nat 2%nat 0); [lia | lra].
  - apply (Hs 3%nat 2%nat 0 100 false); [lia | lra].
  - apply (Hl 100 5%nat 4%nat); [lia | lra].
  - apply (Hp 100 5%nat 4%nat 1%nat 6 0); [lia | lra].
Defined.

(** ** Lattice with one point per ring *)

Lemma trip_count_IZR (z : Z) : trip_count (IZR z) = Z.to_nat z.
Proof.
  unfold trip_count. f_equal. apply Zceil_eq. lra.
Qed.

Lemma trip_count_affine (layer : nat) (m : Z) :
  trip_count (1 + INR layer * IZR m) = Z.to_nat (1 + Z.of_nat layer * m).
Proof.
  now rewrite INR_IZR_INZ, <- mult_IZR, <- plus_IZR, trip_count_IZR.
Qed.

Lemma flat_map_singleton {A B : Type} (f : A -> B) (l : list A) :
  flat_map (fun a => [f a]) l = map f l.
Proof. induction l as [|a l IH]; simpl; [reflexivity | now rewrite IH]. Qed.

(** C6: with nPerLayer = 0, L >= 1 rings and n >= L, the lattice
    generator returns exactly L points, ring by ring: the point of ring
    [layer] has radius layer * size / (2 * L) and angle
    twist * layer * pi. *)
Theorem C6_lattice_one_point_per_ring (L n : nat) (size twist : R) :
  (1 <= L)%nat -> (L <= n)%nat ->
  generateLatticePoints n size L 0 twist
  = map (fun layer =>
           let radius := INR layer * size / (2 * INR L) in
           let theta := twist * INR layer * PI in
           (roundFloat (radius * cos theta) 2,
            roundFloat (radius * sin theta) 2))
        (seq 0 L)
  /\ length (generateLatticePoints n size L 0 twist) = L.
Proof.
  intros HL Hn.
  assert (Hall : latticeAllPoints size L 0 twist
                 = map (fun layer =>
                          (roundFloat (INR layer * size / (2 * INR L)
                                       * cos (twist * INR layer * PI)) 2,
                           roundFloat (INR layer * size / (2 * INR L)
                                       * sin (twist * INR layer * PI)) 2))
                       (seq 0 L)).
  { rewrite latticeAllPoints_rings, <- flat_map_singleton.
    apply flat_map_ext. intro layer. unfold latticeRing.
    rewrite (trip_count_affine layer 0), Z.mul_0_r. simpl.
    unfold roundPoint, latticeXY, latticeRadius, latticeTheta. simpl.
    now rewrite !Rmult_0_l, !Rplus_0_l. }
  assert (Hlen : length (latticeAllPoints size L 0 twist) = L)
    by now rewrite Hall, length_map, length_seq.
  unfold generateLatticePoints, downsample. rewrite Hlen.
  assert (E : (n <? L)%nat = false) by (apply Nat.ltb_ge; lia).
  rewrite E. split; [exact Hall | exact Hlen].
Qed.

Lemma C6_lattice_one_point_per_ring_witness :
  generateLatticePoints 50 500 5 0 (1 / 4)
  = map (fun layer =>
           let radius := INR layer * 500 / (2 * INR 5) in
           let theta := 1 / 4 * INR layer * PI in
           (roundFloat (radius * cos theta) 2,
            roundFloat (radius * sin theta) 2))
        (seq 0 5)
  /\ length (generateLatticePoints 50 500 5 0 (1 / 4)) = 5%nat.
Proof. apply (C6_lattice_one_point_per_ring 5 50 500 (1 / 4)); lia. Defined.

(** ** Trimming the lattice *)

Lemma strided_count_step (a stride : nat) :
  (1 <= stride)%nat -> (1 <= a)%nat ->
  strided_count a stride = S (strided_count (a - stride) stride).
Proof.
  intros Hs Ha. destruct a as [|a]; [lia|]. simpl strided_count at 1.
  f_equal. unfold strided_count.
  destruct (S a - stride)%nat as [|d] eqn:E.
  - apply Nat.div_small. lia.
  - replace a with (d + 1 * stride)%nat by lia.
    rewrite Nat.div_add by lia. lia.
Qed.

Section Downsample.
Variables (points : PointArray) (stride : nat).
Hypothesis stride_pos : (1 <= stride)%nat.

Lemma downsample_loop :
  forall fuel i acc,
    (length points - i < fuel)%nat ->
    for_loop fuel (fun i => i <? length points)%nat
      (fun i => i + stride)%nat
      (fun i newPoints => push newPoints (nth i points (0, 0))) i acc
    = acc ++ map (fun j => nth (i + j * stride) points (0, 0))
                 (seq 0 (strided_count (length points - i) stride)).
Proof.
  induction fuel as [|fuel IH]; intros i acc Hf; [lia|].
  cbn [for_loop].
  destruct (i <? length points)%nat eqn:Hi.
  - apply Nat.ltb_lt in Hi.
    rewrite IH by lia.
    rewrite (strided_count_step (length points - i)) by lia.
    unfold push. rewrite <- app_assoc. f_equal.
    rewrite <- cons_seq, <- seq_shift, map_cons, map_map. simpl.
    rewrite Nat.add_0_r. f_equal.
    replace (length points - i - stride)%nat
      with (length points - (i + stride))%nat by lia.
    apply map_ext. intro j. f_equal. lia.
  - apply Nat.ltb_ge in Hi.
    replace (length points - i)%nat with 0%nat by lia.
    simpl. now rewrite app_nil_r.
Qed.

Lemma downsample_loop_exits :
  forall fuel i,
    (length points - i < fuel)%nat ->
    loop_exits fuel (fun i => i <? length points)%nat
      (fun i => i + stride)%nat i = true.
Proof.
  induction fuel as [|fuel IH]; intros i Hf; [lia|].
  cbn [loop_exits].
  destruct (i <? length points)%nat eqn:Hi; [|reflexivity].
  apply Nat.ltb_lt in Hi. apply IH. lia.
Qed.
End Downsample.

Lemma floor_stride_pos (len n : nat) :
  (1 <= n)%nat -> (n < len)%nat -> (1 <= len / n)%nat.
Proof.
  intros Hn Hl. apply Nat.div_le_lower_bound; lia.
Qed.

(** What the trimming step returns when it applies: the elements at the
    indices 0, stride, 2 stride, ... for stride = floor(length / n). *)
Lemma downsample_every_nth (points : PointArray) (n : nat) :
  (1 <= n)%nat -> (n < length points)%nat ->
  downsample points n = every_nth points (length points / n).
Proof.
  intros Hn Hl. unfold downsample.
  assert (E : (n <? length points)%nat = true) by now apply Nat.ltb_lt.
  rewrite E. destruct n as [|n]; [lia|]. cbv zeta.
  rewrite downsample_loop by (try apply floor_stride_pos; lia).
  rewrite Nat.sub_0_r. reflexivity.
Qed.

(** The trimming loop stops by its own test. *)
Lemma downsample_exits (points : PointArray) (n : nat) :
  (1 <= n)%nat -> (n < length points)%nat ->
  loop_exits (S (length points)) (fun i => i <? length points)%nat
    (fun i => i + length points / n)%nat 0%nat = true.
Proof.
  intros Hn Hl. apply downsample_loop_exits; [|lia].
  now apply floor_stride_pos.
Qed.

(** The trimmed list is never shorter than [n]. *)
Lemma every_nth_length_ge (len n : nat) :
  (1 <= n)%nat -> (n < len)%nat ->
  (n <= strided_count len (len / n))%nat.
Proof.
  intros Hn Hl.
  pose proof (floor_stride_pos len n Hn Hl) as Hs.
  destruct len as [|len]; [lia|]. simpl strided_count.
  set (s := (S len / n)%nat) in *.
  pose proof (Nat.div_mod_eq (S len) n) as E1. fold s in E1.
  pose proof (Nat.div_mod_eq len s) as E2.
  pose proof (Nat.mod_upper_bound len s ltac:(lia)) as B2.
  nia.
Qed.

Lemma downsample_length_ge (points : PointArray) (n : nat) :
  (n < length points)%nat -> (n <= length (downsample points n))%nat.
Proof.
  intro Hl. destruct (Nat.eq_dec n 0) as [->|Hn]; [lia|].
  rewrite downsample_every_nth by lia.
  unfold every_nth. rewrite length_map, length_seq.
  apply every_nth_length_ge; lia.
Qed.

Lemma length_flat_map_sum {A B : Type} (f : A -> list B) (l : list A) :
  length (flat_map f l) = list_sum (map (fun a => length (f a)) l).
Proof.
  induction l as [|a l IH]; simpl; [reflexivity|].
  now rewrite length_app, IH.
Qed.

(** Size of the untrimmed lattice for an integer ring growth. *)
Lemma latticeAllPoints_length (size : R) (layers : nat) (m : Z) (twist : R) :
  length (latticeAllPoints size layers (IZR m) twist)
  = list_sum (map (fun layer => Z.to_nat (1 + Z.of_nat layer * m))
                  (seq 0 layers)).
Proof.
  rewrite latticeAllPoints_rings, length_flat_map_sum.
  f_equal. apply map_ext. intro layer.
  unfold latticeRing. now rewrite length_map, length_seq, trip_count_affine.
Qed.

(** A stride of 1 removes nothing. *)
Lemma every_nth_1 (points : PointArray) : every_nth points 1 = points.
Proof.
  unfold every_nth.
  replace (strided_count (length points) 1) with (length points)
    by (unfold strided_count; destruct (length points);
        [reflexivity | now rewrite Nat.div_1_r]).
  induction points as [|p points IH]; simpl; [reflexivity|].
  f_equal. rewrite <- seq_shift, map_map.
  etransitivity; [|exact IH]. apply map_ext. intro j. reflexivity.
Qed.

(** C1, evaluation at the failing input: with the control panel's
    default values (n = 50, size = 500, layers = 5, nPerLayer = 6,
    twist = 0) the rings hold 1 + 7 + 13 + 19 + 25 = 65 points, the
    stride is floor(65 / 50) = 1, and the trimming step returns all 65
    points, more than the requested 50. *)
Theorem C1_trim_exceeds_n :
  length (latticeAllPoints 500 5 6 0) = 65%nat
  /\ (length (latticeAllPoints 500 5 6 0) / 50 = 1)%nat
  /\ generateLatticePoints 50 500 5 6 0 = latticeAllPoints 500 5 6 0
  /\ length (generateLatticePoints 50 500 5 6 0) = 65%nat
  /\ (50 < length (generateLatticePoints 50 500 5 6 0))%nat.
Proof.
  assert (Hlen : length (latticeAllPoints 500 5 6 0) = 65%nat)
    by (rewrite latticeAllPoints_length; reflexivity).
  assert (Hgen : generateLatticePoints 50 500 5 6 0
                 = latticeAllPoints 500 5 6 0).
  { unfold generateLatticePoints.
    rewrite downsample_every_nth by (try rewrite Hlen; lia).
    rewrite Hlen. change (65 / 50)%nat with 1%nat. apply every_nth_1. }
  rewrite Hgen, Hlen. repeat split; lia.
Qed.

(** A second input: n = 5, three rings growing by 3 give 1 + 4 + 7 = 12
    points, the stride is floor(12 / 5) = 2 and six points remain. *)
Lemma trim_12_to_6 :
  length (latticeAllPoints 100 3 3 0) = 12%nat
  /\ length (generateLatticePoints 5 100 3 3 0) = 6%nat.
Proof.
  assert (Hlen : length (latticeAllPoints 100 3 3 0) = 12%nat)
    by (rewrite latticeAllPoints_length; reflexivity).
  split; [exact Hlen|].
  unfold generateLatticePoints.
  rewrite downsample_every_nth by (try rewrite Hlen; lia).
  unfold every_nth. rewrite Hlen, length_map, length_seq. reflexivity.
Qed.

(** ** Statistics on tiny point sets *)

Lemma nearestDistance_exits (points : PointArray) :
  loop_exits (S (length points)) (fun j => j <? length points)%nat S 0%nat
  = true.
Proof.
  apply (loop_exits_range _ (length points)); [lia | |].
  - intros j Hj; apply Nat.ltb_lt; lia.
  - apply Nat.ltb_ge; lia.
Qed.

(** C7: [computePointStats] returns a record on the empty point set and
    on a single point, with the values the formulas give: no points give
    minimum +Infinity, maximum -Infinity and average 0/0 = NaN; one
    point has nearest-neighbour distance +Infinity, so minimum, maximum,
    average and median are +Infinity and the normalised deviation is
    NaN. *)
Theorem C7_stats_degenerate (p : Point) (size : R) :
  computePointStats [] size = mkPointStats NaN None PosInf NegInf NaN
  /\ nearestDistances [p] size = [PosInf]
  /\ computePointStats [p] size
     = mkPointStats PosInf (Some PosInf) PosInf PosInf NaN.
Proof.
  assert (Hd : nearestDistances [p] size = [PosInf]) by reflexivity.
  repeat split.
  - unfold computePointStats. simpl.
    destruct (Req_dec_T 0 0) as [_|H]; [|lra].
    destruct (Rlt_dec 0 0); [lra | reflexivity].
  - unfold computePointStats. rewrite Hd. simpl.
    destruct (Rlt_dec 1 0); [lra | reflexivity].
Qed.

(** ** Sorting *)

Ltac js_cases :=
  simpl; unfold Rltb; repeat destruct (Rlt_dec _ _);
  try reflexivity; try congruence; try lra.

(** On numbers other than NaN the comparator [(a, b) => a - b] is
    positive exactly when [b < a]. *)
Lemma comparefn_sub (a b : jsnum) :
  not_NaN a -> not_NaN b ->
  js_ltb (Fin 0) (js_sub a b) = js_ltb b a.
Proof.
  unfold not_NaN. intros Ha Hb. destruct a, b; js_cases.
Qed.

Lemma js_le_trans (a b c : jsnum) :
  not_NaN a -> not_NaN b -> not_NaN c ->
  js_le a b -> js_le b c -> js_le a c.
Proof.
  unfold not_NaN, js_le. intros Ha Hb Hc.
  destruct a, b, c; js_cases.
Qed.

Lemma js_le_antisym (a b : jsnum) :
  not_NaN a -> not_NaN b -> js_le a b -> js_le b a -> a = b.
Proof.
  unfold not_NaN, js_le. intros Ha Hb.
  destruct a, b; js_cases.
  intros H1 H2. f_equal. lra.
Qed.

Lemma js_ltb_asym (a b : jsnum) : js_ltb a b = true -> js_ltb b a = false.
Proof. destruct a, b; js_cases. Qed.

Lemma Forall_perm (l l' : list jsnum) :
  Permutation l l' -> Forall not_NaN l -> Forall not_NaN l'.
Proof.
  intros HP H. rewrite Forall_forall in *. intros x Hx.
  apply H. apply (Permutation_in _ (Permutation_sym HP)). exact Hx.
Qed.

Lemma sort_insert_perm (comparefn : jsnum -> jsnum -> jsnum) (x : jsnum)
    (l : list jsnum) :
  Permutation (sort_insert comparefn x l) (x :: l).
Proof.
  induction l as [|y t IH]; cbn [sort_insert]; [reflexivity|].
  destruct (js_ltb (Fin 0) (comparefn x y)); [|reflexivity].
  rewrite IH. apply perm_swap.
Qed.

Lemma Array_sort_perm (comparefn : jsnum -> jsnum -> jsnum)
    (l : list jsnum) :
  Permutation (Array_sort comparefn l) l.
Proof.
  induction l as [|x l IH]; [reflexivity|].
  change (Permutation (sort_insert comparefn x (Array_sort comparefn l))
                      (x :: l)).
  rewrite sort_insert_perm. now constructor.
Qed.

Lemma sort_insert_ascending (x : jsnum) (l : list jsnum) :
  not_NaN x -> Forall not_NaN l -> Sorted js_le l ->
  Sorted js_le (sort_insert (fun a b => js_sub a b) x l).
Proof.
  intros Hx Hl Hs. induction l as [|y t IH]; cbn [sort_insert].
  - repeat constructor.
  - inversion Hl as [|? ? Hy Ht]; subst.
    inversion Hs as [|? ? Hst Hhd]; subst.
    rewrite comparefn_sub by assumption.
    destruct (js_ltb y x) eqn:E.
    + constructor; [now apply IH|].
      destruct t as [|z t]; cbn [sort_insert].
      * constructor. now apply js_ltb_asym.
      * inversion Ht; subst. rewrite comparefn_sub by assumption.
        destruct (js_ltb z x); constructor.
        -- now inversion Hhd.
        -- now apply js_ltb_asym.
    + constructor; [exact Hs|]. constructor. exact E.
Qed.

(** Without NaN the sort returns the list in ascending order. *)
Lemma Array_sort_ascending (l : list jsnum) :
  Forall not_NaN l -> Sorted js_le (Array_sort (fun a b => js_sub a b) l).
Proof.
  induction l as [|x l IH]; intro H; [constructor|].
  change (Sorted js_le (sort_insert (fun a b => js_sub a b) x
                          (Array_sort (fun a b => js_sub a b) l))).
  inversion H; subst.
  apply sort_insert_ascending; auto.
  apply (Forall_perm l); [|assumption].
  symmetry. apply Array_sort_perm.
Qed.

Lemma ascending_head_least (a : jsnum) (l : list jsnum) :
  not_NaN a -> Forall not_NaN l -> Sorted js_le (a :: l) ->
  Forall (js_le a) l.
Proof.
  revert a. induction l as [|b l IH]; intros a Ha Hl Hs; [constructor|].
  inversion Hl; subst. inversion Hs as [|? ? Hs' Hhd]; subst.
  inversion Hhd; subst.
  constructor; [assumption|].
  assert (Hb : Forall (js_le b) l) by now apply IH.
  rewrite Forall_forall in *. intros c Hc.
  apply (js_le_trans a b c); auto.
Qed.

(** A list without NaN has one ascending arrangement only. *)
Lemma ascending_unique (l1 : list jsnum) :
  forall l2,
    Forall not_NaN l1 -> Sorted js_le l1 -> Sorted js_le l2 ->
    Permutation l1 l2 -> l1 = l2.
Proof.
  induction l1 as [|a t1 IH]; intros l2 Hn S1 S2 HP.
  - apply Permutation_nil in HP. now subst.
  - destruct l2 as [|b t2].
    + symmetry in HP. now apply Permutation_nil in HP.
    + assert (Hn2 : Forall not_NaN (b :: t2))
        by (apply (Forall_perm _ _ HP); assumption).
      inversion Hn as [|? ? Ha Ht1]; subst.
      inversion Hn2 as [|? ? Hb Ht2]; subst.
      pose proof (ascending_head_least a t1 Ha Ht1 S1) as M1.
      pose proof (ascending_head_least b t2 Hb Ht2 S2) as M2.
      rewrite Forall_forall in M1, M2.
      assert (Hab : a = b).
      { assert (In a (b :: t2)) as [->|Ia]
          by (apply (Permutation_in _ HP); now left); [reflexivity|].
        assert (In b (a :: t1)) as [->|Ib]
          by (apply (Permutation_in _ (Permutation_sym HP)); now left);
          [reflexivity|].
        apply js_le_antisym; auto. }
      subst b. f_equal.
      apply IH; auto.
      * now inversion S1.
      * now inversion S2.
      * now apply Permutation_cons_inv in HP.
Qed.

Lemma dist_on_axis (a b : R) :
  js_div (Fin (Math_hypot (a - b) (0 - 0))) (Fin 1) = Fin (Rabs (a - b)).
Proof.
  unfold js_div. destruct (Req_dec_T 1 0) as [H|_]; [lra|].
  f_equal. unfold Math_hypot.
  replace ((a - b) * (a - b) + (0 - 0) * (0 - 0)) with (Rsqr (a - b))
    by (unfold Rsqr; ring).
  rewrite sqrt_Rsqr_abs. lra.
Qed.

Ltac eval_Rabs :=
  repeat match goal with
         | |- context [Rabs ?e] =>
             first [ rewrite (Rabs_pos_eq e) by lra
                   | rewrite (Rabs_left1 e) by lra ]
         end.

Ltac eval_js_ltb :=
  repeat (cbn [js_ltb js_sub sort_insert fold_right];
          first [ rewrite Rltb_true by lra | rewrite Rltb_false by lra ]);
  cbn [js_ltb js_sub sort_insert fold_right].

Lemma fourPoints_distances :
  nearestDistances fourPoints 1 = [Fin 1; Fin 1; Fin 2; Fin 3].
Proof.
  unfold nearestDistances, fourPoints, mapi, mapi_from, nearestDistance.
  cbn [for_loop length Nat.ltb Nat.leb Nat.eqb nth fst snd].
  rewrite !dist_on_axis. eval_Rabs. eval_js_ltb.
  repeat (f_equal; try lra).
Qed.

Lemma fourPoints_sorted :
  Array_sort (fun a b => js_sub a b) [Fin 1; Fin 1; Fin 2; Fin 3]
  = [Fin 1; Fin 1; Fin 2; Fin 3].
Proof.
  unfold Array_sort. cbn [fold_right sort_insert]. eval_js_ltb.
  reflexivity.
Qed.

(** ** The median *)

Lemma mapi_from_length {A B : Type} (f : A -> nat -> B) (l : list A) :
  forall i, length (mapi_from i f l) = length l.
Proof.
  induction l as [|x l IH]; intro i; simpl; [reflexivity | now rewrite IH].
Qed.

Lemma nearestDistances_length (points : PointArray) (size : R) :
  length (nearestDistances points size) = length points.
Proof. apply mapi_from_length. Qed.

Lemma mapi_from_Forall {A B : Type} (P : B -> Prop) (f : A -> nat -> B) :
  (forall x i, P (f x i)) -> forall l i, Forall P (mapi_from i f l).
Proof.
  intros Hf l. induction l as [|x l IH]; intro i; simpl; constructor; auto.
Qed.

(** With a non-zero [size] no nearest-neighbour distance is NaN. *)
Lemma nearestDistances_not_NaN (points : PointArray) (size : R) :
  size <> 0 -> Forall not_NaN (nearestDistances points size).
Proof.
  intro Hs. apply mapi_from_Forall. intros point i.
  unfold nearestDistance. apply for_loop_invariant; [|discriminate].
  intros j acc _ Hacc.
  destruct (i =? j)%nat; [exact Hacc|].
  destruct (nth j points (0, 0)) as [x y]. cbv zeta.
  destruct (js_ltb _ acc); [|exact Hacc].
  unfold js_div. destruct (Req_dec_T size 0); [contradiction | discriminate].
Qed.

(** C2 as stated fails: for the four points (0,0), (1,0), (3,0), (6,0)
    and size 1 the nearest-neighbour distances are 1, 1, 2, 3, already
    ascending; the lower of the two middle elements is 1 and the median
    returned is 2. *)
Lemma C2_median_not_lower_middle :
  let sorted :=
    Array_sort (fun a b => js_sub a b) (nearestDistances fourPoints 1) in
  sorted = [Fin 1; Fin 1; Fin 2; Fin 3]
  /\ nth_error sorted (length sorted / 2 - 1) = Some (Fin 1)
  /\ median (computePointStats fourPoints 1) = Some (Fin 2)
  /\ median (computePointStats fourPoints 1)
     <> nth_error sorted (length sorted / 2 - 1).
Proof.
  cbv zeta. unfold computePointStats. cbn [median].
  rewrite fourPoints_distances, fourPoints_sorted. cbn.
  repeat split. intro E. injection E as E. lra.
Qed.

(** C2, amended: the median returned is the element at index
    floor(length / 2) of the sorted nearest-neighbour distances, without
    interpolation: for an odd number 2m + 1 of points the middle element
    (index m), for an even number 2m the element at index m, the upper
    of the two middle elements.  The sorted list is a rearrangement of
    the distances and, for a non-zero size, their only ascending one. *)
Theorem C2_median_upper_middle (points : PointArray) (size : R) :
  let sorted :=
    Array_sort (fun a b => js_sub a b) (nearestDistances points size) in
  median (computePointStats points size)
  = nth_error sorted (length points / 2)
  /\ (forall m, length points = (2 * m)%nat ->
        median (computePointStats points size) = nth_error sorted m)
  /\ (forall m, length points = (2 * m + 1)%nat ->
        median (computePointStats points size) = nth_error sorted m)
  /\ Permutation sorted (nearestDistances points size)
  /\ (size <> 0 ->
      Sorted js_le sorted
      /\ forall ascending,
           Permutation ascending (nearestDistances points size) ->
           Sorted js_le ascending -> ascending = sorted).
Proof.
  cbv zeta.
  assert (Hmed : median (computePointStats points size)
                 = nth_error (Array_sort (fun a b => js_sub a b)
                                (nearestDistances points size))
                             (length points / 2)).
  { unfold computePointStats. cbn [median].
    now rewrite (Permutation_length (Array_sort_perm _ _)),
      nearestDistances_length. }
  split; [exact Hmed|].
  split; [intros m Hm; rewrite Hmed, Hm; f_equal;
          rewrite Nat.mul_comm; apply Nat.div_mul; lia|].
  split; [intros m Hm; rewrite Hmed, Hm; f_equal;
          rewrite Nat.add_comm, Nat.mul_comm, Nat.div_add by lia;
          reflexivity|].
  split; [apply Array_sort_perm|].
  intro Hs.
  pose proof (nearestDistances_not_NaN points size Hs) as Hn.
  split; [now apply Array_sort_ascending|].
  intros ascending HP Hasc. apply ascending_unique.
  - apply (Forall_perm (nearestDistances points size)); [|exact Hn].
    now symmetry.
  - exact Hasc.
  - now apply Array_sort_ascending.
  - rewrite Array_sort_perm. exact HP.
Qed.

Lemma C2_median_upper_middle_witness :
  median (computePointStats fourPoints 1)
  = nth_error (Array_sort (fun a b => js_sub a b)
                 (nearestDistances fourPoints 1)) 2
  /\ Sorted js_le (Array_sort (fun a b => js_sub a b)
                     (nearestDistances fourPoints 1)).
Proof.
  destruct (C2_median_upper_middle fourPoints 1) as (_ & He & _ & _ & Hs).
  split.
  - apply (He 2%nat). reflexivity.
  - apply Hs. lra.
Defined.

(** * Further properties of the code *)

(** ** [radius] *)

(** For a boundary count b >= 0 and a step k >= 1, the radius factor is
    1 exactly on the steps k > n - b and, when b = 0, on the last step
    k = n; every other step is strictly inside the circle. *)
Theorem radius_one_iff_boundary (k n : nat) (b : R) :
  (1 <= k)%nat -> 0 <= b ->
  (radius (INR k) (INR n) b = 1
   <-> INR n - b < INR k \/ (b = 0 /\ k = n))
  /\ (radius (INR k) (INR n) b <> 1 -> radius (INR k) (INR n) b < 1).
Proof.
  intros Hk Hb.
  assert (H1 : 1 <= INR k) by (change 1 with (INR 1); now apply le_INR).
  assert (Hin : INR k <= INR n - b -> ~ (b = 0 /\ k = n) ->
                radius (INR k) (INR n) b < 1).
  { intros Hle Hnot. unfold radius. rewrite Rltb_false by exact Hle.
    assert (Hlt : INR k - 0.5 < INR n - (b + 1) / 2).
    { destruct (Req_dec_T b 0) as [Hb0|Hb0]; [|lra].
      assert (INR k <> INR n).
      { intro E. apply INR_eq in E. now apply Hnot. }
      lra. }
    assert (Hnum : 0 <= INR k - 0.5) by lra.
    pose proof (sqrt_lt_1_alt _ _ (conj Hnum Hlt)) as Hs.
    assert (Hden : 0 < sqrt (INR n - (b + 1) / 2)).
    { apply sqrt_lt_R0. lra. }
    apply (Rmult_lt_reg_r (sqrt (INR n - (b + 1) / 2))); [exact Hden|].
    unfold Rdiv. rewrite Rmult_assoc, Rinv_l by lra. lra. }
  assert (Hone : INR n - b < INR k \/ (b = 0 /\ k = n) ->
                 radius (INR k) (INR n) b = 1).
  { intros [Hlt | [Hb0 Hkn]]; unfold radius.
    - now rewrite Rltb_true.
    - subst b k. rewrite Rltb_false by lra.
      replace (INR n - (0 + 1) / 2) with (INR n - 0.5) by lra.
      assert (0 < sqrt (INR n - 0.5)) by (apply sqrt_lt_R0; lra).
      field. lra. }
  assert (Hdec : radius (INR k) (INR n) b = 1
                 \/ radius (INR k) (INR n) b < 1).
  { destruct (Rlt_dec (INR n - b) (INR k)) as [Hlt|Hge]; [left; auto|].
    destruct (Req_dec_T b 0) as [Hb0|Hb0].
    - destruct (Nat.eq_dec k n) as [Hkn|Hkn]; [left; auto|].
      right. apply Hin; [lra | tauto].
    - right. apply Hin; [lra | tauto]. }
  split; [split|].
  - intro E.
    destruct (Rlt_dec (INR n - b) (INR k)) as [Hlt|Hge]; [now left|].
    right. destruct (Req_dec_T b 0) as [Hb0|Hb0].
    + destruct (Nat.eq_dec k n) as [Hkn|Hkn]; [tauto|].
      assert (radius (INR k) (INR n) b < 1) by (apply Hin; [lra | tauto]).
      lra.
    + assert (radius (INR k) (INR n) b < 1) by (apply Hin; [lra | tauto]).
      lra.
  - exact Hone.
  - intro Hne. destruct Hdec; [contradiction | assumption].
Qed.

Lemma radius_one_iff_boundary_witness :
  (radius (INR 49) (INR 50) 14 = 1
   <-> INR 50 - 14 < INR 49 \/ (14 = 0 /\ 49%nat = 50%nat))
  /\ (radius (INR 49) (INR 50) 14 <> 1 -> radius (INR 49) (INR 50) 14 < 1).
Proof. apply (radius_one_iff_boundary 49 50 14); [lia | lra]. Defined.

(** The radius factor never decreases from one step to the next: the
    points are emitted from the centre outwards. *)
Theorem radius_monotone (k k' n : nat) (b : R) :
  (1 <= k)%nat -> (k <= k')%nat -> 0 <= b ->
  radius (INR k) (INR n) b <= radius (INR k') (INR n) b.
Proof.
  intros Hk Hkk Hb.
  assert (H1 : 1 <= INR k) by (change 1 with (INR 1); now apply le_INR).
  assert (H2 : INR k <= INR k') by now apply le_INR.
  destruct (Rlt_dec (INR n - b) (INR k')) as [Hout|Hin].
  - unfold radius at 2. rewrite Rltb_true by exact Hout.
    apply radius_bounds; assumption.
  - unfold radius. rewrite !Rltb_false by lra.
    assert (Hden : 0 < sqrt (INR n - (b + 1) / 2)).
    { apply sqrt_lt_R0. lra. }
    apply Rmult_le_compat_r; [left; now apply Rinv_0_lt_compat|].
    apply sqrt_le_1_alt. lra.
Qed.

Lemma radius_monotone_witness :
  radius (INR 3) (INR 50) 14 <= radius (INR 40) (INR 50) 14.
Proof. apply (radius_monotone 3 40 50 14); [lia | lia | lra]. Defined.

(** ** [roundFloat] *)

Lemma roundFloat_small (val : R) (prec : nat) :
  Rabs val < 10 ^ 21 ->
  roundFloat val prec
  = (if Rlt_dec val 0 then -1 else 1)
    * (IZR (Zfloor (Rabs val * 10 ^ prec + / 2)) / 10 ^ prec).
Proof.
  intro H. unfold roundFloat.
  destruct (Rle_dec (10 ^ 21) (Rabs val)); [lra|].
  destruct (Rlt_dec val 0); lra.
Qed.

Lemma roundFloat_half_unit (val : R) (prec : nat) :
  Rabs val < 10 ^ 21 ->
  (exists z : Z, roundFloat val prec = IZR z / 10 ^ prec)
  /\ Rabs (roundFloat val prec - val) <= / 2 / 10 ^ prec.
Proof.
  intro H.
  assert (HP : 0 < 10 ^ prec) by (apply pow_lt; lra).
  assert (HI : 0 < / 10 ^ prec) by now apply Rinv_0_lt_compat.
  rewrite roundFloat_small by exact H.
  pose proof (Zfloor_bound (Rabs val * 10 ^ prec + / 2)) as [Hlo Hhi].
  set (z := Zfloor (Rabs val * 10 ^ prec + / 2)) in *.
  assert (Hm : Rabs (IZR z / 10 ^ prec - Rabs val) <= / 2 / 10 ^ prec).
  { replace (IZR z / 10 ^ prec - Rabs val)
      with ((IZR z - Rabs val * 10 ^ prec) * / 10 ^ prec) by (field; lra).
    rewrite Rabs_mult, (Rabs_pos_eq (/ 10 ^ prec)) by lra.
    unfold Rdiv. apply Rmult_le_compat_r; [lra|].
    apply Rabs_le. lra. }
  destruct (Rlt_dec val 0) as [Hneg|Hpos].
  - split.
    + exists (- z)%Z. rewrite opp_IZR. field. lra.
    + rewrite (Rabs_left val Hneg) in Hm.
      replace (-1 * (IZR z / 10 ^ prec) - val)
        with (- (IZR z / 10 ^ prec - - val)) by ring.
      now rewrite Rabs_Ropp.
  - split.
    + exists z. ring.
    + rewrite (Rabs_pos_eq val) in Hm by lra.
      now rewrite Rmult_1_l.
Qed.

(** For a digit count [prec] of at most 100 (beyond it [toFixed] raises
    a RangeError and nothing is returned) and a magnitude below 10^21,
    the result is a whole number of units 10^-prec and is at most half
    a unit away from the argument. *)
Theorem roundFloat_error (val : R) (prec : nat) :
  (prec <= 100)%nat ->
  Rabs val < 10 ^ 21 ->
  (exists z : Z, roundFloat val prec = IZR z / 10 ^ prec)
  /\ Rabs (roundFloat val prec - val) <= / 2 / 10 ^ prec.
Proof. intros _. exact (roundFloat_half_unit val prec). Qed.

Lemma roundFloat_error_witness :
  (exists z : Z, roundFloat (-3 / 8) 2 = IZR z / 10 ^ 2)
  /\ Rabs (roundFloat (-3 / 8) 2 - -3 / 8) <= / 2 / 10 ^ 2.
Proof.
  apply (roundFloat_error (-3 / 8) 2); [lia|].
  rewrite Rabs_left by lra. lra.
Defined.

Lemma roundFloat_magnitude (val : R) (prec : nat) :
  Rabs val < 10 ^ 21 ->
  0 <= IZR (Zfloor (Rabs val * 10 ^ prec + / 2)) / 10 ^ prec <= 10 ^ 21.
Proof.
  intro H.
  assert (HP : 0 < 10 ^ prec) by (apply pow_lt; lra).
  assert (HI : 0 < / 10 ^ prec) by now apply Rinv_0_lt_compat.
  pose proof (Rabs_pos val) as Ha.
  pose proof (Zfloor_bound (Rabs val * 10 ^ prec + / 2)) as [Hlo Hhi].
  set (z := Zfloor (Rabs val * 10 ^ prec + / 2)) in *.
  split.
  - apply Rmult_le_pos; [|lra]. apply IZR_le.
    apply Zfloor_lub. nra.
  - assert (HN : 10 ^ 21 * 10 ^ prec
                 = IZR (10 ^ Z.of_nat 21 * 10 ^ Z.of_nat prec)).
    { now rewrite mult_IZR, <- !pow_IZR. }
    assert (Hz : (z <= 10 ^ Z.of_nat 21 * 10 ^ Z.of_nat prec)%Z).
    { assert (z < 10 ^ Z.of_nat 21 * 10 ^ Z.of_nat prec + 1)%Z; [|lia].
      apply lt_IZR. rewrite plus_IZR, <- HN. nra. }
    apply IZR_le in Hz. rewrite <- HN in Hz.
    apply (Rmult_le_reg_r (10 ^ prec)); [exact HP|].
    unfold Rdiv. rewrite Rmult_assoc, Rinv_l by lra. lra.
Qed.

(** For a digit count [prec] of at most 100 (beyond it [toFixed] raises
    a RangeError), rounding keeps the order of its arguments. *)
Theorem roundFloat_monotone (x y : R) (prec : nat) :
  (prec <= 100)%nat ->
  x <= y -> roundFloat x prec <= roundFloat y prec.
Proof.
  intros _ Hxy.
  assert (HP : 0 < 10 ^ prec) by (apply pow_lt; lra).
  assert (HI : 0 < / 10 ^ prec) by now apply Rinv_0_lt_compat.
  assert (HT : 0 < 10 ^ 21) by (apply pow_lt; lra).
  destruct (Rle_dec (10 ^ 21) (Rabs x)) as [Bx|Sx];
    destruct (Rle_dec (10 ^ 21) (Rabs y)) as [By|Sy].
  - unfold roundFloat.
    destruct (Rle_dec (10 ^ 21) (Rabs x)); [|contradiction].
    destruct (Rle_dec (10 ^ 21) (Rabs y)); [|contradiction]. exact Hxy.
  - assert (Sy' : Rabs y < 10 ^ 21) by lra.
    pose proof (roundFloat_magnitude y prec Sy') as [M0 M1].
    rewrite (roundFloat_small y) by exact Sy'.
    unfold roundFloat at 1.
    destruct (Rle_dec (10 ^ 21) (Rabs x)); [|contradiction].
    assert (x <= - 10 ^ 21).
    { revert Bx Sy'. unfold Rabs.
      destruct (Rcase_abs x), (Rcase_abs y); lra. }
    destruct (Rlt_dec y 0); lra.
  - assert (Sx' : Rabs x < 10 ^ 21) by lra.
    pose proof (roundFloat_magnitude x prec Sx') as [M0 M1].
    rewrite (roundFloat_small x) by exact Sx'.
    unfold roundFloat at 1.
    destruct (Rle_dec (10 ^ 21) (Rabs y)); [|contradiction].
    assert (10 ^ 21 <= y).
    { revert By Sx'. unfold Rabs.
      destruct (Rcase_abs x), (Rcase_abs y); lra. }
    destruct (Rlt_dec x 0); lra.
  - assert (Sx' : Rabs x < 10 ^ 21) by lra.
    assert (Sy' : Rabs y < 10 ^ 21) by lra.
    pose proof (roundFloat_magnitude x prec Sx') as [Mx _].
    pose proof (roundFloat_magnitude y prec Sy') as [My _].
    rewrite !roundFloat_small by assumption.
    destruct (Rlt_dec x 0) as [Nx|Px], (Rlt_dec y 0) as [Ny|Py]; try lra.
    + assert (Hz : (Zfloor (Rabs y * 10 ^ prec + / 2)
                    <= Zfloor (Rabs x * 10 ^ prec + / 2))%Z).
      { apply Zfloor_le. rewrite !Rabs_left by assumption. nra. }
      apply IZR_le in Hz.
      assert (IZR (Zfloor (Rabs y * 10 ^ prec + / 2)) / 10 ^ prec
              <= IZR (Zfloor (Rabs x * 10 ^ prec + / 2)) / 10 ^ prec)
        by (apply Rmult_le_compat_r; lra).
      lra.
    + assert (Hz : (Zfloor (Rabs x * 10 ^ prec + / 2)
                    <= Zfloor (Rabs y * 10 ^ prec + / 2))%Z).
      { apply Zfloor_le. rewrite !Rabs_pos_eq by lra. nra. }
      apply IZR_le in Hz.
      assert (IZR (Zfloor (Rabs x * 10 ^ prec + / 2)) / 10 ^ prec
              <= IZR (Zfloor (Rabs y * 10 ^ prec + / 2)) / 10 ^ prec)
        by (apply Rmult_le_compat_r; lra).
      lra.
Qed.

Lemma roundFloat_monotone_witness : roundFloat (-1) 2 <= roundFloat (1 / 3) 2.
Proof. apply roundFloat_monotone; [lia | lra]. Defined.

(** ** [generateLatticePoints] *)

Lemma roundFloat_0 (prec : nat) : roundFloat 0 prec = 0.
Proof.
  assert (HT : 0 < 10 ^ 21) by (apply pow_lt; lra).
  rewrite roundFloat_small by (rewrite Rabs_R0; exact HT).
  rewrite Rabs_R0, Rmult_0_l, Rplus_0_l, (Zfloor_eq 0) by lra.
  destruct (Rlt_dec 0 0); unfold Rdiv; ring.
Qed.

Lemma latticeRing_0 (size : R) (layers : nat) (nPerLayer twist : R) :
  latticeRing size layers nPerLayer twist 0 = [(0, 0)].
Proof.
  unfold latticeRing. simpl INR.
  replace (1 + 0 * nPerLayer) with (IZR 1) by ring.
  rewrite trip_count_IZR. simpl.
  unfold roundPoint, latticeXY, latticeRadius. simpl.
  unfold Rdiv. rewrite !Rmult_0_l, roundFloat_0. reflexivity.
Qed.

Lemma downsample_head (p : Point) (rest : PointArray) (n : nat) :
  hd_error (downsample (p :: rest) n) = Some p.
Proof.
  destruct (Nat.ltb_spec n (length (p :: rest))) as [Hlt|Hge].
  - destruct n as [|n].
    + unfold downsample. cbn [length Nat.ltb Nat.leb nth push app hd_error].
      reflexivity.
    + rewrite downsample_every_nth by lia.
      unfold every_nth. cbn [length strided_count seq map Nat.mul nth hd_error].
      reflexivity.
  - unfold downsample.
    assert (E : (n <? length (p :: rest))%nat = false) by now apply Nat.ltb_ge.
    now rewrite E.
Qed.

(** No rings give no points; with at least one ring the result starts
    with the centre point (0, 0), whatever [n] is and whether the list
    was trimmed or not; and for n = 0 the centre is the only point
    returned. *)
Theorem lattice_center_first (n : nat) (size : R) (layers : nat)
    (nPerLayer twist : R) :
  generateLatticePoints n size 0 nPerLayer twist = []
  /\ ((1 <= layers)%nat ->
      hd_error (generateLatticePoints n size layers nPerLayer twist)
      = Some (0, 0))
  /\ ((1 <= layers)%nat ->
      generateLatticePoints 0 size layers nPerLayer twist = [(0, 0)]).
Proof.
  split; [|split].
  - unfold generateLatticePoints. rewrite latticeAllPoints_rings.
    unfold downsample. simpl. now destruct n.
  - intro HL. unfold generateLatticePoints.
    rewrite latticeAllPoints_rings.
    destruct layers as [|L]; [lia|].
    rewrite <- cons_seq. cbn [flat_map]. rewrite latticeRing_0.
    apply downsample_head.
  - intro HL. unfold generateLatticePoints.
    rewrite latticeAllPoints_rings.
    destruct layers as [|L]; [lia|].
    rewrite <- cons_seq. cbn [flat_map]. rewrite latticeRing_0.
    reflexivity.
Qed.

Lemma lattice_center_first_witness :
  hd_error (generateLatticePoints 50 500 5 6 0) = Some (0, 0)
  /\ generateLatticePoints 0 500 5 6 0 = [(0, 0)].
Proof.
  destruct (lattice_center_first 50 500 5 6 0) as (_ & H1 & _).
  destruct (lattice_center_first 0 500 5 6 0) as (_ & _ & H2).
  split; [apply H1 | apply H2]; lia.
Defined.

Lemma triangular_step (L : nat) :
  (S L * (S L - 1) / 2 = L * (L - 1) / 2 + L)%nat.
Proof.
  replace (S L * (S L - 1))%nat with (L * (L - 1) + L * 2)%nat by nia.
  now rewrite Nat.div_add by lia.
Qed.

Lemma ring_sizes_sum (k L : nat) :
  list_sum (map (fun layer => Z.to_nat (1 + Z.of_nat layer * Z.of_nat k))
                (seq 0 L))
  = (L + k * (L * (L - 1) / 2))%nat.
Proof.
  induction L as [|L IH]; [simpl; lia|].
  rewrite seq_S, map_app, list_sum_app, IH, triangular_step.
  cbn [map list_sum Nat.add]. rewrite <- Nat2Z.inj_mul.
  replace (Z.to_nat (1 + Z.of_nat (L * k))) with (1 + L * k)%nat by lia.
  generalize (L * (L - 1) / 2)%nat. intro T.
  unfold list_sum; cbn [fold_right].
  rewrite Nat.mul_add_distr_l, (Nat.mul_comm L k). lia.
Qed.

(** For a whole number [k] of extra points per ring, [layers] rings
    hold layers + k * layers * (layers - 1) / 2 points, and that many
    are returned whenever [n] is at least as large. *)
Theorem lattice_point_count (n : nat) (size : R) (layers k : nat)
    (twist : R) :
  let total := (layers + k * (layers * (layers - 1) / 2))%nat in
  length (latticeAllPoints size layers (INR k) twist) = total
  /\ ((total <= n)%nat ->
      length (generateLatticePoints n size layers (INR k) twist) = total).
Proof.
  cbv zeta.
  assert (Hall : length (latticeAllPoints size layers (INR k) twist)
                 = (layers + k * (layers * (layers - 1) / 2))%nat).
  { rewrite INR_IZR_INZ, latticeAllPoints_length. apply ring_sizes_sum. }
  split; [exact Hall|].
  intro Hn. unfold generateLatticePoints, downsample.
  rewrite Hall.
  assert (E : (n <? layers + k * (layers * (layers - 1) / 2))%nat = false)
    by (apply Nat.ltb_ge; exact Hn).
  now rewrite E.
Qed.

Lemma lattice_point_count_witness :
  length (latticeAllPoints 500 5 (INR 6) 0) = 65%nat
  /\ length (generateLatticePoints 100 500 5 (INR 6) 0) = 65%nat.
Proof.
  destruct (lattice_point_count 100 500 5 6 0) as [H1 H2].
  split; [exact H1 | apply H2; simpl; lia].
Defined.

Lemma strided_count_upper (len n : nat) :
  (1 <= n)%nat -> (n < len)%nat ->
  (strided_count len (len / n) <= 2 * n - 1)%nat.
Proof.
  intros Hn Hl.
  pose proof (floor_stride_pos len n Hn Hl) as Hs.
  destruct len as [|len]; [lia|]. cbn [strided_count].
  set (s := (S len / n)%nat) in *.
  pose proof (Nat.div_mod_eq (S len) n) as E1. fold s in E1.
  pose proof (Nat.mod_upper_bound (S len) n ltac:(lia)) as B1.
  assert (len / s < 2 * n - 1)%nat; [|lia].
  apply Nat.Div0.div_lt_upper_bound. nia.
Qed.

Lemma strided_count_exact (len n : nat) :
  (1 <= n)%nat -> (n < len)%nat -> (len mod n = 0)%nat ->
  strided_count len (len / n) = n.
Proof.
  intros Hn Hl Hm.
  pose proof (floor_stride_pos len n Hn Hl) as Hs.
  pose proof (Nat.div_mod_eq len n) as E1. rewrite Hm in E1.
  destruct len as [|len]; [lia|]. cbn [strided_count].
  set (s := (S len / n)%nat) in *.
  assert (len / s = n - 1)%nat; [|lia].
  symmetry. apply Nat.div_unique with (r := (s - 1)%nat); [lia|]. nia.
Qed.

(** When the rings hold more than [n] >= 1 points, the trimmed result
    has at least [n] and at most 2n - 1 points, and exactly [n] when
    [n] divides the number of generated points. *)
Theorem lattice_trim_bounds (n : nat) (size : R) (layers : nat)
    (nPerLayer twist : R) :
  (1 <= n)%nat ->
  (n < length (latticeAllPoints size layers nPerLayer twist))%nat ->
  (n <= length (generateLatticePoints n size layers nPerLayer twist)
     <= 2 * n - 1)%nat
  /\ ((length (latticeAllPoints size layers nPerLayer twist) mod n = 0)%nat
      -> length (generateLatticePoints n size layers nPerLayer twist) = n).
Proof.
  intros Hn Hl. unfold generateLatticePoints.
  rewrite downsample_every_nth by assumption.
  unfold every_nth. rewrite length_map, length_seq.
  repeat split.
  - now apply every_nth_length_ge.
  - now apply strided_count_upper.
  - intro Hm. now apply strided_count_exact.
Qed.

Lemma lattice_trim_bounds_witness :
  (5 <= length (generateLatticePoints 5 100 3 3 0) <= 2 * 5 - 1)%nat
  /\ ((length (latticeAllPoints 100 3 3 0) mod 5 = 0)%nat
      -> length (generateLatticePoints 5 100 3 3 0) = 5%nat).
Proof.
  apply (lattice_trim_bounds 5 100 3 3 0); [lia|].
  destruct trim_12_to_6 as [H _]. rewrite H. lia.
Defined.

(** ** Generated points and the canvas *)

Lemma roundFloat_within (x B : R) :
  Rabs x <= B -> Rabs (roundFloat x 2) <= B + 0.005.
Proof.
  intro H.
  assert (HT : 0 < 10 ^ 21) by (apply pow_lt; lra).
  destruct (Rle_dec (10 ^ 21) (Rabs x)) as [Hbig|Hsmall].
  - unfold roundFloat.
    destruct (Rle_dec (10 ^ 21) (Rabs x)); [lra | contradiction].
  - destruct (roundFloat_half_unit x 2) as [_ He]; [lra|].
    replace (roundFloat x 2) with (x + (roundFloat x 2 - x)) by ring.
    eapply Rle_trans; [apply Rabs_triang|].
    replace (/ 2 / 10 ^ 2) with 0.005 in He by (simpl; lra). lra.
Qed.

Lemma polar_within (r theta : R) :
  Rabs (r * cos theta) <= Rabs r /\ Rabs (r * sin theta) <= Rabs r.
Proof.
  pose proof (COS_bound theta) as [Hc1 Hc2].
  pose proof (SIN_bound theta) as [Hs1 Hs2].
  pose proof (Rabs_pos r).
  rewrite !Rabs_mult.
  assert (Rabs (cos theta) <= 1) by (apply Rabs_le; lra).
  assert (Rabs (sin theta) <= 1) by (apply Rabs_le; lra).
  split; nra.
Qed.

Lemma roundPoint_within (r theta B : R) :
  Rabs r <= B ->
  let p := roundPoint (r * cos theta, r * sin theta) in
  Rabs (fst p) <= B + 0.005 /\ Rabs (snd p) <= B + 0.005.
Proof.
  intro H. cbv zeta. unfold roundPoint. cbn [fst snd].
  destruct (polar_within r theta) as [Hx Hy].
  split; apply roundFloat_within; lra.
Qed.

Lemma generatePoints_bound (genProps : GenProps) :
  0 < gp_size genProps -> 0 <= gp_alpha genProps ->
  Forall (fun p => Rabs (fst p) <= gp_size genProps / 2 + 0.005
                   /\ Rabs (snd p) <= gp_size genProps / 2 + 0.005)
         (generatePoints genProps).
Proof.
  intros Hs Ha. unfold generatePoints. cbv zeta.
  destruct (_ || _).
  - rewrite generateSunflowerPoints_map. apply Forall_forall.
    intros p Hp. apply in_map_iff in Hp as (k & <- & Hk).
    apply in_seq in Hk.
    unfold sunflowerXY. cbv zeta. apply roundPoint_within.
    pose proof (radius_bounds k (gp_n genProps)
                  (sunflowerB (gp_n genProps) (gp_alpha genProps))
                  ltac:(lia) (sunflowerB_nonneg _ _ Ha)) as [H0 H1].
    rewrite Rabs_pos_eq by nra. nra.
  - destruct (_ =? _)%string; [|constructor].
    apply Forall_forall. intros p Hp.
    apply downsample_incl in Hp.
    rewrite latticeAllPoints_rings in Hp.
    apply in_flat_map in Hp as (layer & Hl & Hp).
    apply in_map_iff in Hp as (i & <- & _).
    apply in_seq in Hl.
    unfold latticeXY. cbv zeta. apply roundPoint_within.
    destruct (latticeRadius_bounds (gp_size genProps) (gp_layers genProps)
                layer ltac:(lia) Hs) as [H0 H1].
    rewrite Rabs_pos_eq by exact H0. lra.
Qed.

(** For a positive [size] and alpha >= 0, every coordinate returned by
    [generatePoints], in every mode, is within size/2 + 0.005 of zero:
    the rounded points leave the circle by at most the rounding step. *)
Theorem generatePoints_within_canvas (genProps : GenProps) :
  0 < gp_size genProps -> 0 <= gp_alpha genProps ->
  Forall (fun p => Rabs (fst p) <= gp_size genProps / 2 + 0.005
                   /\ Rabs (snd p) <= gp_size genProps / 2 + 0.005)
         (generatePoints genProps).
Proof. exact (generatePoints_bound genProps). Qed.

Lemma generatePoints_within_canvas_witness :
  Forall (fun p => Rabs (fst p) <= 500 / 2 + 0.005
                   /\ Rabs (snd p) <= 500 / 2 + 0.005)
         (generatePoints (mkGenProps 50 2 "sunflower" 500 5 6 0)).
Proof.
  apply (generatePoints_within_canvas (mkGenProps 50 2 "sunflower" 500 5 6 0));
    simpl; lra.
Defined.

(** ** [App] *)

(** With [adjustSizeToFitRadius] set, a dot radius r >= 0 with 2r below
    the canvas size and alpha >= 0, every dot (the disc of radius r
    around a generated point, moved by size/2 as the drawing does) stays
    inside the view box [0, size] x [0, size] up to the rounding step
    0.005. *)
Theorem App_dots_inside_viewBox (c : Controls) :
  c_adjustSizeToFitRadius c = true ->
  0 <= c_radius c -> 2 * c_radius c < c_size c -> 0 <= c_alpha c ->
  Forall (fun p =>
            (- 0.005 <= fst p + c_size c / 2 - c_radius c
             /\ fst p + c_size c / 2 + c_radius c <= c_size c + 0.005)
            /\ (- 0.005 <= snd p + c_size c / 2 - c_radius c
                /\ snd p + c_size c / 2 + c_radius c <= c_size c + 0.005))
         (App_points c).
Proof.
  intros Hadj Hr Hs Ha.
  assert (H : Forall (fun p =>
                Rabs (fst p) <= (c_size c - c_radius c * 2) / 2 + 0.005
                /\ Rabs (snd p) <= (c_size c - c_radius c * 2) / 2 + 0.005)
              (App_points c)).
  { unfold App_points, App_genProps. cbv zeta. rewrite Hadj.
    apply (generatePoints_bound
             (mkGenProps (c_n c) (c_alpha c) (c_mode c)
                (c_size c - c_radius c * 2) (c_layers c) (c_nPerLayer c)
                (c_twist c))); simpl; lra. }
  apply (Forall_impl _ (P := fun p =>
            Rabs (fst p) <= (c_size c - c_radius c * 2) / 2 + 0.005
            /\ Rabs (snd p) <= (c_size c - c_radius c * 2) / 2 + 0.005));
    [|exact H].
  intros p [Hx Hy]. revert Hx Hy. unfold Rabs.
  destruct (Rcase_abs (fst p)), (Rcase_abs (snd p)); lra.
Qed.

Lemma App_dots_inside_viewBox_witness :
  let c := mkControls true 2 false false 5 "sunflower" 50 4.5 500 false 0 6 in
  Forall (fun p =>
            (- 0.005 <= fst p + c_size c / 2 - c_radius c
             /\ fst p + c_size c / 2 + c_radius c <= c_size c + 0.005)
            /\ (- 0.005 <= snd p + c_size c / 2 - c_radius c
                /\ snd p + c_size c / 2 + c_radius c <= c_size c + 0.005))
         (App_points c).
Proof.
  apply (App_dots_inside_viewBox
           (mkControls true 2 false false 5 "sunflower" 50 4.5 500 false 0 6));
    simpl; try reflexivity; lra.
Defined.

(** ** Renderer *)

Lemma hypot_axis (radius : R) :
  Math_hypot (1.5 * radius) 0 = 1.5 * Rabs radius
  /\ Math_hypot 0 (1.5 * radius) = 1.5 * Rabs radius.
Proof.
  unfold Math_hypot.
  replace (1.5 * radius * (1.5 * radius) + 0 * 0) with (Rsqr (1.5 * radius))
    by (unfold Rsqr; ring).
  replace (0 * 0 + 1.5 * radius * (1.5 * radius)) with (Rsqr (1.5 * radius))
    by (unfold Rsqr; ring).
  rewrite sqrt_Rsqr_abs, Rabs_mult, (Rabs_pos_eq 1.5) by lra. split; reflexivity.
Qed.

Lemma Dot_length (radius cx cy : R) (center crosshair : bool) :
  length (Dot radius cx cy center crosshair)
  = (1 + (if crosshair then 2 else 0) + (if center then 1 else 0))%nat.
Proof. unfold Dot. destruct center, crosshair; reflexivity. Qed.

(** The shapes of one dot, in document order: first the circle of the
    dot at (cx, cy) with the given radius, filled black when neither
    marker is on and otherwise unfilled with a black stroke; then, when
    [crosshair] is set, exactly two red segments, a horizontal one on
    the line y = cy and a vertical one on the line x = cx, each centred
    on the point and 1.5 dot radii long; last, when [center] is set, one
    circle of radius 0.1 at (cx, cy) with a blue stroke and no fill
    attribute.  Nothing else is drawn. *)
Theorem Dot_shapes (radius cx cy : R) (center crosshair : bool) :
  exists lines marker,
    Dot radius cx cy center crosshair
    = Circle cx cy radius
        (Some (if center || crosshair then "none" else "black")%string)
        (if center || crosshair then Some "black"%string else None)
      :: lines ++ marker
    /\ (if crosshair then
          exists x1 x2 y1 y2,
            lines = [Line x1 cy x2 cy "red"; Line cx y1 cx y2 "red"]
            /\ (x1 + x2) / 2 = cx /\ Rabs (x2 - x1) = 1.5 * Rabs radius
            /\ (y1 + y2) / 2 = cy /\ Rabs (y2 - y1) = 1.5 * Rabs radius
        else lines = [])
    /\ marker
       = (if center then [Circle cx cy 0.1 None (Some "blue"%string)]
          else [])
    /\ length (Dot radius cx cy center crosshair)
       = (1 + (if crosshair then 2 else 0) + (if center then 1 else 0))%nat.
Proof.
  assert (Hlen : forall c : R,
             Rabs (c + radius * 0.75 - (c - radius * 0.75))
             = 1.5 * Rabs radius).
  { intro c.
    replace (c + radius * 0.75 - (c - radius * 0.75)) with (1.5 * radius)
      by lra.
    now rewrite Rabs_mult, (Rabs_pos_eq 1.5) by lra. }
  exists (if crosshair then
            [Line (cx - radius * 0.75) cy (cx + radius * 0.75) cy "red";
             Line cx (cy - radius * 0.75) cx (cy + radius * 0.75) "red"]
          else []),
         (if center then [Circle cx cy 0.1 None (Some "blue"%string)] else []).
  split; [unfold Dot; destruct center, crosshair; reflexivity|].
  split; [|split; [reflexivity | apply Dot_length]].
  destruct crosshair; [|reflexivity].
  exists (cx - radius * 0.75), (cx + radius * 0.75),
         (cy - radius * 0.75), (cy + radius * 0.75).
  split; [reflexivity|]. repeat split; try lra; apply Hlen.
Qed.

Lemma mapi_from_nth_error {A B : Type} (f : A -> nat -> B) (l : list A) :
  forall k i,
    nth_error (mapi_from k f l) i
    = option_map (fun x => f x (k + i)%nat) (nth_error l i).
Proof.
  induction l as [|x l IH]; intros k i; destruct i as [|i]; simpl;
    try reflexivity.
  - now rewrite Nat.add_0_r.
  - rewrite IH. now replace (S k + i)%nat with (k + S i)%nat by lia.
Qed.

Lemma concat_length_const {A : Type} (ll : list (list A)) (m : nat) :
  Forall (fun l => length l = m) ll ->
  length (concat ll) = (length ll * m)%nat.
Proof.
  induction 1 as [|l ll Hl _ IH]; simpl; [reflexivity|].
  now rewrite length_app, IH, Hl.
Qed.

(** The drawing holds one dot per point, in the order of the points and
    keyed by the index of the point; the i-th dot is drawn at the i-th
    point with the given radius and markers, and the number of shapes is
    the number of points times the number of shapes of one dot. *)
Theorem DotArrangement_one_dot_per_point (size radius : R)
    (points : PointArray) (styleProps : StyleProps) :
  let d := DotArrangement size radius points styleProps in
  length (svg_dots d) = length points
  /\ (forall i,
        nth_error (svg_dots d) i
        = option_map
            (fun p => (i, Dot radius (fst p) (snd p) (sp_center styleProps)
                            (sp_crosshair styleProps)))
            (nth_error points i))
  /\ length (svg_shapes d)
     = (length points
        * (1 + (if sp_crosshair styleProps then 2 else 0)
           + (if sp_center styleProps then 1 else 0)))%nat.
Proof.
  cbv zeta. unfold DotArrangement, svg_shapes, mapi. cbn [svg_dots].
  split; [apply mapi_from_length|].
  split; [intro i; now rewrite mapi_from_nth_error|].
  rewrite <- (mapi_from_length
                (fun p i => (i, Dot radius (fst p) (snd p)
                                  (sp_center styleProps)
                                  (sp_crosshair styleProps)))
                points 0) at 1.
  rewrite <- (length_map snd).
  apply concat_length_const.
  apply Forall_forall. intros l Hl.
  apply in_map_iff in Hl as ([k sh] & <- & Hin). cbn [snd].
  apply In_nth_error in Hin as [i Hi].
  rewrite mapi_from_nth_error in Hi.
  destruct (@nth_error (R * R) points i) as [p|]; simpl in Hi;
    [|discriminate Hi].
  inversion Hi; subst. apply Dot_length.
Qed.

(** ** [computePointStats]: degenerate sizes and two points *)

Lemma js_div_size (h size : R) :
  size <> 0 -> js_div (Fin h) (Fin size) = Fin (h / size).
Proof.
  intro H. unfold js_div. destruct (Req_dec_T size 0); [contradiction|].
  reflexivity.
Qed.

Lemma js_div_by_zero (h : R) :
  0 <= h -> js_div (Fin h) (Fin 0) = PosInf \/ js_div (Fin h) (Fin 0) = NaN.
Proof.
  intro H. unfold js_div. destruct (Req_dec_T 0 0) as [_|E]; [|lra].
  destruct (Rlt_dec 0 h); [now left|].
  destruct (Rlt_dec h 0); [lra | now right].
Qed.

Lemma Math_hypot_nonneg (a b : R) : 0 <= Math_hypot a b.
Proof. apply sqrt_pos. Qed.

Lemma hypot_zero (a b : R) : Math_hypot a b = 0 -> a = 0 /\ b = 0.
Proof.
  unfold Math_hypot. intro H.
  pose proof (Rle_0_sqr a) as Ha. pose proof (Rle_0_sqr b) as Hb.
  unfold Rsqr in Ha, Hb.
  apply sqrt_eq_0 in H; [|lra].
  split; apply Rsqr_0_uniq; unfold Rsqr; lra.
Qed.

Lemma Math_hypot_sym (a b c d : R) :
  Math_hypot (a - b) (c - d) = Math_hypot (b - a) (d - c).
Proof. unfold Math_hypot. f_equal. ring. Qed.

Lemma mapi_from_const {A B : Type} (f : A -> nat -> B) (v : B) :
  (forall x i, f x i = v) ->
  forall l k, mapi_from k f l = repeat v (length l).
Proof.
  intros Hf l. induction l as [|x l IH]; intro k; simpl; [reflexivity|].
  now rewrite Hf, IH.
Qed.

Lemma js_ltb_not_NaN (a b : jsnum) : js_ltb a b = true -> not_NaN a.
Proof. destruct a, b; simpl; unfold not_NaN; congruence. Qed.

(** A nearest-neighbour distance is never NaN, whatever [size] is: a
    NaN candidate fails the test [distance < minDistance]. *)
Lemma nearestDistance_never_NaN (points : PointArray) (size : R)
    (point : Point) (i : nat) :
  not_NaN (nearestDistance points size point i).
Proof.
  unfold nearestDistance. apply for_loop_invariant; [|discriminate].
  intros j acc _ Hacc.
  destruct (i =? j)%nat; [exact Hacc|].
  destruct (nth j points (0, 0)) as [x y]. cbv zeta.
  destruct (js_ltb _ acc) eqn:E; [|exact Hacc].
  now apply js_ltb_not_NaN in E.
Qed.

Lemma nearestDistance_size_0 (points : PointArray) (point : Point)
    (i : nat) :
  nearestDistance points 0 point i = PosInf.
Proof.
  unfold nearestDistance.
  apply (for_loop_invariant (fun v => v = PosInf)); [|reflexivity].
  intros j acc _ ->.
  destruct (i =? j)%nat; [reflexivity|].
  destruct (nth j points (0, 0)) as [x y]. cbv zeta.
  destruct (js_div_by_zero _ (Math_hypot_nonneg (fst point - x)
                                (snd point - y))) as [-> | ->];
    reflexivity.
Qed.

Lemma fold_min_repeat_PosInf (k : nat) :
  fold_left js_min2 (repeat PosInf k) PosInf = PosInf.
Proof. induction k as [|k IH]; simpl; [reflexivity | exact IH]. Qed.

Lemma fold_max_repeat_PosInf (k : nat) :
  fold_left js_max2 (repeat PosInf k) PosInf = PosInf.
Proof. induction k as [|k IH]; simpl; [reflexivity | exact IH]. Qed.

Lemma fold_max_repeat_NaN (k : nat) :
  fold_left js_max2 (repeat NaN k) NaN = NaN.
Proof. induction k as [|k IH]; simpl; [reflexivity | exact IH]. Qed.

Lemma fold_add_repeat_PosInf (k : nat) :
  fold_left (fun a b => js_add a b) (repeat PosInf k) PosInf = PosInf.
Proof. induction k as [|k IH]; simpl; [reflexivity | exact IH]. Qed.

Lemma Array_sort_repeat_PosInf (k : nat) :
  Array_sort (fun a b => js_sub a b) (repeat PosInf k) = repeat PosInf k.
Proof.
  induction k as [|k IH]; [reflexivity|].
  change (sort_insert (fun a b => js_sub a b) PosInf
            (Array_sort (fun a b => js_sub a b) (repeat PosInf k))
          = PosInf :: repeat PosInf k).
  rewrite IH. destruct k; reflexivity.
Qed.

(** A zero [size] makes every nearest-neighbour distance +Infinity
    (a division by zero gives +Infinity, or NaN, which is never kept),
    so for a non-empty point set average, median, minimum and maximum
    are +Infinity and the normalised deviation is NaN. *)
Theorem stats_size_zero (points : PointArray) :
  nearestDistances points 0 = repeat PosInf (length points)
  /\ (points <> [] ->
      computePointStats points 0
      = mkPointStats PosInf (Some PosInf) PosInf PosInf NaN).
Proof.
  assert (Hd : nearestDistances points 0 = repeat PosInf (length points)).
  { unfold nearestDistances, mapi. apply mapi_from_const.
    intros x i. apply nearestDistance_size_0. }
  split; [exact Hd|].
  intro Hne. unfold computePointStats. rewrite Hd.
  destruct (length points) as [|k] eqn:Hlen.
  { destruct points; [contradiction | discriminate]. }
  cbv zeta. rewrite Array_sort_repeat_PosInf, repeat_length.
  rewrite map_repeat.
  unfold Math_min, Math_max. cbn [repeat fold_left js_min2 js_max2 js_ltb
                                   js_add js_sub js_abs].
  rewrite fold_min_repeat_PosInf, fold_max_repeat_PosInf,
    fold_add_repeat_PosInf.
  assert (Hk : 0 < INR (S k)) by (apply lt_0_INR; lia).
  assert (Hdiv : js_div PosInf (Fin (INR (S k))) = PosInf).
  { unfold js_div. destruct (Rlt_dec (INR (S k)) 0); [lra | reflexivity]. }
  rewrite Hdiv. cbn [js_sub js_abs js_max2].
  rewrite fold_max_repeat_NaN.
  assert (Hmed : nth_error (repeat PosInf (S k)) (S k / 2) = Some PosInf).
  { apply nth_error_repeat. apply Nat.div_lt; lia. }
  cbn [repeat] in Hmed. rewrite Hmed. reflexivity.
Qed.

Lemma stats_size_zero_witness :
  computePointStats fourPoints 0
  = mkPointStats PosInf (Some PosInf) PosInf PosInf NaN.
Proof. apply (stats_size_zero fourPoints). discriminate. Defined.

(** Two points and a non-zero [size]: both nearest-neighbour distances
    are the distance d between the points divided by [size]; average,
    median, minimum and maximum all equal d, and the normalised
    deviation is 0 for distinct points.  For two coincident points the
    four statistics are 0 and the deviation 0/0 is NaN. *)
Theorem stats_two_points (p q : Point) (size : R) :
  size <> 0 ->
  let d := Math_hypot (fst p - fst q) (snd p - snd q) / size in
  nearestDistances [p; q] size = [Fin d; Fin d]
  /\ (p <> q ->
      computePointStats [p; q] size
      = mkPointStats (Fin d) (Some (Fin d)) (Fin d) (Fin d) (Fin 0))
  /\ (p = q ->
      computePointStats [p; q] size
      = mkPointStats (Fin 0) (Some (Fin 0)) (Fin 0) (Fin 0) NaN).
Proof.
  intros Hs. cbv zeta.
  set (d := Math_hypot (fst p - fst q) (snd p - snd q) / size).
  assert (Hd : nearestDistances [p; q] size = [Fin d; Fin d]).
  { destruct p as [px py], q as [qx qy].
    unfold nearestDistances, mapi, mapi_from, nearestDistance.
    cbn [for_loop length Nat.ltb Nat.leb Nat.eqb nth fst snd].
    rewrite !js_div_size by exact Hs. cbn [js_ltb].
    rewrite (Math_hypot_sym qx px qy py). reflexivity. }
  assert (Hstats : computePointStats [p; q] size
                   = mkPointStats (Fin d) (Some (Fin d)) (Fin d) (Fin d)
                       (js_div (Fin 0) (Fin d))).
  { unfold computePointStats. rewrite Hd. cbv zeta.
    unfold Math_min, Math_max, Array_sort.
    cbn [fold_left fold_right sort_insert map length js_min2 js_max2 js_ltb
         js_add js_sub js_abs INR].
    rewrite !Rltb_false by lra.
    cbn [length Nat.div nth_error].
    replace (0 + d + d) with (d * (1 + 1)) by ring.
    rewrite js_div_size by lra.
    replace (d * (1 + 1) / (1 + 1)) with d by (field; lra).
    cbn [js_sub js_abs js_max2 js_ltb].
    replace (d - d) with 0 by ring. rewrite Rabs_R0.
    rewrite (Rltb_false 0 0) by lra.
    reflexivity. }
  split; [exact Hd|]. split.
  - intro Hpq. rewrite Hstats. f_equal.
    assert (Hd0 : d <> 0).
    { intro E. apply Hpq. unfold d in E.
      assert (Hh : Math_hypot (fst p - fst q) (snd p - snd q) = 0).
      { apply (Rmult_eq_reg_r (/ size)); [|now apply Rinv_neq_0_compat].
        rewrite Rmult_0_l. exact E. }
      apply hypot_zero in Hh as [Hx Hy].
      destruct p as [px py], q as [qx qy]. cbn [fst snd] in Hx, Hy.
      f_equal; lra. }
    rewrite js_div_size by exact Hd0. f_equal. field. exact Hd0.
  - intro Hpq. rewrite Hstats.
    assert (Hd0 : d = 0).
    { unfold d. subst q. unfold Math_hypot, Rminus.
      rewrite !Rplus_opp_r, Rmult_0_l, Rplus_0_l, sqrt_0.
      unfold Rdiv. apply Rmult_0_l. }
    rewrite Hd0. f_equal.
    unfold js_div. destruct (Req_dec_T 0 0) as [_|E]; [|lra].
    destruct (Rlt_dec 0 0); [lra | reflexivity].
Qed.

Lemma stats_two_points_witness :
  computePointStats [(0, 0); (3, 4)] 1
  = mkPointStats (Fin (Math_hypot (0 - 3) (0 - 4) / 1))
      (Some (Fin (Math_hypot (0 - 3) (0 - 4) / 1)))
      (Fin (Math_hypot (0 - 3) (0 - 4) / 1))
      (Fin (Math_hypot (0 - 3) (0 - 4) / 1)) (Fin 0).
Proof.
  destruct (stats_two_points (0, 0) (3, 4) 1) as (_ & H & _); [lra|].
  apply H. intro E. injection E as E1 E2. lra.
Defined.

(** ** [computePointStats]: nearest neighbours and order statistics *)

Lemma pairDistance_nonneg (points : PointArray) (size : R) (i j : nat) :
  0 < size -> 0 <= pairDistance points size i j.
Proof.
  intro Hs. unfold pairDistance. cbv zeta.
  apply Rmult_le_pos; [apply Math_hypot_nonneg|].
  left. now apply Rinv_0_lt_compat.
Qed.

(** The value of [minDistance] after the candidates j = 0 .. m - 1. *)
Lemma nearest_prefix (points : PointArray) (size : R) (i : nat) :
  size <> 0 ->
  forall m,
    let v :=
      fold_left
        (fun minDistance j =>
           if (i =? j)%nat then minDistance
           else
             let '(x, y) := nth j points (0, 0) in
             let distance :=
               js_div (Fin (Math_hypot (fst (nth i points (0, 0)) - x)
                                       (snd (nth i points (0, 0)) - y)))
                      (Fin size) in
             if js_ltb distance minDistance then distance else minDistance)
        (seq 0 m) PosInf in
    (v = PosInf /\ forall j, (j < m)%nat -> j = i)
    \/ (exists r,
          v = Fin r
          /\ (forall j, (j < m)%nat -> j <> i ->
                r <= pairDistance points size i j)
          /\ exists j, (j < m)%nat /\ j <> i
                       /\ r = pairDistance points size i j).
Proof.
  intros Hs m. induction m as [|m IH]; cbv zeta.
  - left. split; [reflexivity | intros j Hj; lia].
  - rewrite seq_S, fold_left_app. cbn [fold_left Nat.add].
    cbv zeta in IH.
    match goal with
    | |- context [fold_left ?f (seq 0 m) PosInf] =>
        set (v := fold_left f (seq 0 m) PosInf) in *
    end.
    destruct (Nat.eqb_spec i m) as [E|E]; cbv beta iota.
    + destruct IH as [[Hv Hall] | (r & Hv & Hmin & j & Hj & Hji & Hr)].
      * left. split; [exact Hv|]. intros j Hj.
        destruct (Nat.eq_dec j m); [lia | apply Hall; lia].
      * right. exists r. split; [exact Hv|]. split.
        -- intros j' Hj' Hne. apply Hmin; lia.
        -- exists j. repeat split; [lia | exact Hji | exact Hr].
    + assert (Hdist :
        (let '(x, y) := nth m points (0, 0) in
         js_div (Fin (Math_hypot (fst (nth i points (0, 0)) - x)
                                 (snd (nth i points (0, 0)) - y)))
                (Fin size))
        = Fin (pairDistance points size i m)).
      { unfold pairDistance. cbv zeta.
        destruct (nth m points (0, 0)) as [x y]. cbn [fst snd].
        now apply js_div_size. }
      assert (Hbody :
        (let '(x, y) := nth m points (0, 0) in
         if js_ltb
              (js_div (Fin (Math_hypot (fst (nth i points (0, 0)) - x)
                                       (snd (nth i points (0, 0)) - y)))
                      (Fin size)) v
         then js_div (Fin (Math_hypot (fst (nth i points (0, 0)) - x)
                                      (snd (nth i points (0, 0)) - y)))
                     (Fin size)
         else v)
        = if js_ltb (Fin (pairDistance points size i m)) v
          then Fin (pairDistance points size i m) else v).
      { rewrite <- Hdist. destruct (nth m points (0, 0)). reflexivity. }
      rewrite Hbody. right.
      destruct IH as [[Hv Hall] | (r & Hv & Hmin & j & Hj & Hji & Hr)].
      * rewrite Hv. cbn [js_ltb].
        exists (pairDistance points size i m). split; [reflexivity|]. split.
        -- intros j Hj Hne. destruct (Nat.eq_dec j m) as [->|Hjm]; [lra|].
           exfalso. apply Hne. apply Hall. lia.
        -- exists m. repeat split; [lia | congruence].
      * rewrite Hv. cbn [js_ltb]. unfold Rltb.
        destruct (Rlt_dec (pairDistance points size i m) r) as [Hlt|Hge].
        -- exists (pairDistance points size i m).
           split; [reflexivity|]. split.
           ++ intros j' Hj' Hne. destruct (Nat.eq_dec j' m) as [->|Hjm];
                [lra|]. specialize (Hmin j' ltac:(lia) Hne). lra.
           ++ exists m. repeat split; [lia | congruence].
        -- exists r. split; [reflexivity|]. split.
           ++ intros j' Hj' Hne. destruct (Nat.eq_dec j' m) as [->|Hjm];
                [lra|]. apply Hmin; [lia | exact Hne].
           ++ exists j. repeat split; [lia | exact Hji | exact Hr].
Qed.

Lemma nearestDistances_nth_error (points : PointArray) (size : R) (i : nat) :
  (i < length points)%nat ->
  nth_error (nearestDistances points size) i
  = Some (nearestDistance points size (nth i points (0, 0)) i).
Proof.
  intro Hi. unfold nearestDistances, mapi.
  rewrite mapi_from_nth_error, (nth_error_nth' points (0, 0) Hi).
  reflexivity.
Qed.

Lemma nearestDistance_least (points : PointArray) (size : R)
    (i : nat) :
  0 < size -> (2 <= length points)%nat -> (i < length points)%nat ->
  exists r,
    nth_error (nearestDistances points size) i = Some (Fin r)
    /\ 0 <= r
    /\ (forall j, (j < length points)%nat -> j <> i ->
          r <= pairDistance points size i j)
    /\ exists j, (j < length points)%nat /\ j <> i
                 /\ r = pairDistance points size i j.
Proof.
  intros Hs Hlen Hi.
  rewrite nearestDistances_nth_error by exact Hi.
  unfold nearestDistance.
  rewrite (for_loop_range _ _ (length points)) by
    (try lia; try (intros j Hj; apply Nat.ltb_lt; lia);
     apply Nat.ltb_ge; lia).
  destruct (nearest_prefix points size i ltac:(lra) (length points))
    as [[_ Hall] | (r & Hv & Hmin & j & Hj & Hji & Hr)].
  - exfalso.
    assert (0 = i)%nat by (apply Hall; lia).
    assert (1 = i)%nat by (apply Hall; lia). lia.
  - exists r. cbv zeta in Hv. rewrite Hv.
    split; [reflexivity|]. split.
    + rewrite Hr. now apply pairDistance_nonneg.
    + split; [exact Hmin|]. exists j. repeat split; assumption.
Qed.

(** With a positive [size] and at least two points, the entry computed
    for point i is a finite number r >= 0: the least of the distances
    from point i to the other points (divided by [size]), and the
    distance to one of them. *)
Theorem nearestDistance_is_minimum (points : PointArray) (size : R)
    (i : nat) :
  0 < size -> (2 <= length points)%nat -> (i < length points)%nat ->
  exists r,
    nth_error (nearestDistances points size) i = Some (Fin r)
    /\ 0 <= r
    /\ (forall j, (j < length points)%nat -> j <> i ->
          r <= pairDistance points size i j)
    /\ exists j, (j < length points)%nat /\ j <> i
                 /\ r = pairDistance points size i j.
Proof. exact (nearestDistance_least points size i). Qed.

Lemma nearestDistance_is_minimum_witness :
  exists r,
    nth_error (nearestDistances fourPoints 1) 2 = Some (Fin r)
    /\ 0 <= r
    /\ (forall j, (j < length fourPoints)%nat -> j <> 2%nat ->
          r <= pairDistance fourPoints 1 2 j)
    /\ exists j, (j < length fourPoints)%nat /\ j <> 2%nat
                 /\ r = pairDistance fourPoints 1 2 j.
Proof.
  apply (nearestDistance_is_minimum fourPoints 1 2); simpl; try lia; lra.
Defined.

Lemma js_le_refl (a : jsnum) : js_le a a.
Proof. unfold js_le. destruct a; js_cases. Qed.

Lemma fold_min_spec (l : list jsnum) :
  forall acc,
    not_NaN acc -> Forall not_NaN l ->
    let r := fold_left js_min2 l acc in
    not_NaN r /\ (r = acc \/ In r l) /\ js_le r acc /\ Forall (js_le r) l.
Proof.
  induction l as [|x t IH]; intros acc Hacc Hl; cbv zeta.
  - cbn [fold_left]. repeat split; auto using js_le_refl.
  - inversion Hl as [|? ? Hx Ht]; subst. cbn [fold_left].
    assert (Hm : js_min2 acc x = if js_ltb x acc then x else acc).
    { unfold not_NaN in *. destruct acc, x; try congruence; reflexivity. }
    assert (Hstep : not_NaN (js_min2 acc x)
                    /\ (js_min2 acc x = acc \/ js_min2 acc x = x)
                    /\ js_le (js_min2 acc x) acc
                    /\ js_le (js_min2 acc x) x).
    { rewrite Hm. destruct (js_ltb x acc) eqn:E.
      - repeat split; auto using js_le_refl.
        unfold js_le. now apply js_ltb_asym.
      - repeat split; auto using js_le_refl. }
    destruct Hstep as (Hn' & Hor & Hle1 & Hle2).
    destruct (IH (js_min2 acc x) Hn' Ht) as (Hr & Hin & Hra & Hall).
    cbv zeta in *.
    set (r := fold_left js_min2 t (js_min2 acc x)) in *.
    split; [exact Hr|]. split; [|split].
    + destruct Hin as [E|Hin]; [|right; now right].
      rewrite E. destruct Hor as [->| ->]; [now left | right; now left].
    + apply (js_le_trans r (js_min2 acc x) acc); assumption.
    + constructor; [|exact Hall].
      apply (js_le_trans r (js_min2 acc x) x); assumption.
Qed.

Lemma fold_max_spec (l : list jsnum) :
  forall acc,
    not_NaN acc -> Forall not_NaN l ->
    let r := fold_left js_max2 l acc in
    not_NaN r /\ (r = acc \/ In r l) /\ js_le acc r
    /\ Forall (fun x => js_le x r) l.
Proof.
  induction l as [|x t IH]; intros acc Hacc Hl; cbv zeta.
  - cbn [fold_left]. repeat split; auto using js_le_refl.
  - inversion Hl as [|? ? Hx Ht]; subst. cbn [fold_left].
    assert (Hm : js_max2 acc x = if js_ltb acc x then x else acc).
    { unfold not_NaN in *. destruct acc, x; try congruence; reflexivity. }
    assert (Hstep : not_NaN (js_max2 acc x)
                    /\ (js_max2 acc x = acc \/ js_max2 acc x = x)
                    /\ js_le acc (js_max2 acc x)
                    /\ js_le x (js_max2 acc x)).
    { rewrite Hm. destruct (js_ltb acc x) eqn:E.
      - repeat split; auto using js_le_refl.
        unfold js_le. now apply js_ltb_asym.
      - repeat split; auto using js_le_refl. }
    destruct Hstep as (Hn' & Hor & Hle1 & Hle2).
    destruct (IH (js_max2 acc x) Hn' Ht) as (Hr & Hin & Hra & Hall).
    cbv zeta in *.
    set (r := fold_left js_max2 t (js_max2 acc x)) in *.
    split; [exact Hr|]. split; [|split].
    + destruct Hin as [E|Hin]; [|right; now right].
      rewrite E. destruct Hor as [->| ->]; [now left | right; now left].
    + apply (js_le_trans acc (js_max2 acc x) r); assumption.
    + constructor; [|exact Hall].
      apply (js_le_trans x (js_max2 acc x) r); assumption.
Qed.

Lemma nearestDistances_never_NaN (points : PointArray) (size : R) :
  Forall not_NaN (nearestDistances points size).
Proof.
  apply mapi_from_Forall. intros point i. apply nearestDistance_never_NaN.
Qed.

Lemma stats_order_facts (points : PointArray) (size : R) :
  points <> [] ->
  let s := computePointStats points size in
  let d := nearestDistances points size in
  In (minimum s) d /\ In (maximum s) d
  /\ Forall (fun x => js_le (minimum s) x /\ js_le x (maximum s)) d
  /\ exists m, median s = Some m /\ In m d.
Proof.
  intros Hne. cbv zeta.
  pose proof (nearestDistances_never_NaN points size) as Hn.
  pose proof (nearestDistances_length points size) as Hlen.
  unfold computePointStats. cbn [minimum maximum median].
  set (d := nearestDistances points size) in *.
  destruct d as [|x t] eqn:Hd.
  { destruct points; [contradiction | discriminate]. }
  rewrite <- Hd in *. clearbody d.
  destruct (fold_min_spec d PosInf ltac:(discriminate) Hn)
    as (Hmn & Hmin_in & _ & Hmin_all).
  destruct (fold_max_spec d NegInf ltac:(discriminate) Hn)
    as (Hxn & Hmax_in & _ & Hmax_all).
  cbv zeta in *. fold (Math_min d) in *. fold (Math_max d) in *.
  assert (Hx : In x d) by (rewrite Hd; now left).
  assert (Hxnn : not_NaN x)
    by (rewrite Forall_forall in Hn; now apply Hn).
  split; [|split; [|split]].
  - destruct Hmin_in as [E|H]; [|exact H].
    rewrite Forall_forall in Hmin_all. specialize (Hmin_all x Hx).
    rewrite E in *. unfold js_le, not_NaN in *.
    destruct x; simpl in Hmin_all; try congruence.
  - destruct Hmax_in as [E|H]; [|exact H].
    rewrite Forall_forall in Hmax_all. specialize (Hmax_all x Hx).
    rewrite E in *. unfold js_le, not_NaN in *.
    destruct x; simpl in Hmax_all; try congruence.
  - rewrite Forall_forall in *. intros y Hy. split; auto.
  - pose proof (Array_sort_perm (fun a b => js_sub a b) d) as HP.
    destruct (nth_error (Array_sort (fun a b => js_sub a b) d)
                (length (Array_sort (fun a b => js_sub a b) d) / 2))
      as [m|] eqn:E.
    + exists m. split; [reflexivity|].
      apply (Permutation_in _ HP). now apply nth_error_In in E.
    + exfalso. apply nth_error_None in E.
      rewrite (Permutation_length HP), Hd in E. cbn [length] in E.
      pose proof (Nat.div_lt (S (length t)) 2 ltac:(lia) ltac:(lia)). lia.
Qed.

(** For a non-empty point set and any [size]: [minimum] and [maximum]
    are two of the nearest-neighbour distances and bound all of them
    from below and from above, and [median] is defined and is one of
    the distances too. *)
Theorem stats_order (points : PointArray) (size : R) :
  points <> [] ->
  let s := computePointStats points size in
  let d := nearestDistances points size in
  In (minimum s) d /\ In (maximum s) d
  /\ Forall (fun x => js_le (minimum s) x /\ js_le x (maximum s)) d
  /\ exists m, median s = Some m /\ In m d.
Proof. exact (stats_order_facts points size). Qed.

Lemma stats_order_witness :
  let s := computePointStats fourPoints 1 in
  let d := nearestDistances fourPoints 1 in
  In (minimum s) d /\ In (maximum s) d
  /\ Forall (fun x => js_le (minimum s) x /\ js_le x (maximum s)) d
  /\ exists m, median s = Some m /\ In m d.
Proof. apply (stats_order fourPoints 1). discriminate. Defined.

(** Two points at the same place make the smallest nearest-neighbour
    distance zero (positive [size]). *)
Theorem duplicate_points_minimum_zero (points : PointArray) (size : R)
    (i j : nat) :
  0 < size ->
  (i < length points)%nat -> (j < length points)%nat -> i <> j ->
  nth i points (0, 0) = nth j points (0, 0) ->
  minimum (computePointStats points size) = Fin 0.
Proof.
  intros Hs Hi Hj Hij Heq.
  assert (Hlen : (2 <= length points)%nat) by lia.
  assert (Hne : points <> []) by (destruct points; [simpl in Hi; lia | discriminate]).
  assert (Hpd : pairDistance points size i j = 0).
  { unfold pairDistance. cbv zeta. rewrite Heq.
    unfold Math_hypot, Rminus. rewrite !Rplus_opp_r, Rmult_0_l, Rplus_0_l, sqrt_0.
    unfold Rdiv. apply Rmult_0_l. }
  destruct (nearestDistance_least points size i Hs Hlen Hi)
    as (r & Hnth & Hr0 & Hmin & _).
  assert (Hr : r = 0).
  { specialize (Hmin j Hj ltac:(congruence)). lra. }
  subst r. apply nth_error_In in Hnth.
  destruct (stats_order_facts points size Hne) as (Hin & _ & Hall & _).
  cbv zeta in Hin, Hall.
  rewrite Forall_forall in Hall. destruct (Hall _ Hnth) as [Hle _].
  apply In_nth_error in Hin as [k Hk].
  assert (Hklen : (k < length points)%nat).
  { rewrite <- (nearestDistances_length points size).
    apply nth_error_Some. congruence. }
  destruct (nearestDistance_least points size k Hs Hlen Hklen)
    as (r' & Hnth' & Hr0' & _).
  rewrite Hk in Hnth'. injection Hnth' as Hm.
  change (minimum (computePointStats points size) = Fin r') in Hm.
  rewrite Hm in Hle |- *. unfold js_le in Hle. cbn [js_ltb] in Hle.
  unfold Rltb in Hle. destruct (Rlt_dec 0 r'); [discriminate|].
  f_equal. lra.
Qed.

Lemma duplicate_points_minimum_zero_witness :
  minimum (computePointStats [(1, 2); (5, 5); (1, 2)] 10) = Fin 0.
Proof.
  apply (duplicate_points_minimum_zero [(1, 2); (5, 5); (1, 2)] 10 0 2);
    simpl; try lia; try reflexivity; lra.
Defined.

(** ** The table-driven lattice *)

Lemma hexPointsPerLayer_spec (layer : nat) :
  ((layer < 59)%nat -> hexPointsPerLayer layer <> 0%nat)
  /\ ((59 <= layer)%nat -> hexPointsPerLayer layer = 0%nat).
Proof.
  split; intro H.
  - assert (Hall : Forall (fun p => p <> 0%nat) hexLatticeNumbers)
      by (unfold hexLatticeNumbers; repeat constructor; discriminate).
    rewrite Forall_forall in Hall. apply Hall.
    unfold hexPointsPerLayer. apply nth_In. exact H.
  - unfold hexPointsPerLayer. apply nth_overflow. exact H.
Qed.

Lemma hex_ring_sum (m : nat) :
  (1 <= m <= 59)%nat ->
  list_sum (map hexPointsPerLayer (seq 0 m)) = (3 * m * (m - 1) + 1)%nat.
Proof.
  intros [H1 H2].
  do 60 (destruct m as [|m]; [try lia; reflexivity|]). lia.
Qed.

Lemma hex_inner_loop (size : R) (layers layer : nat) (points : PointArray) :
  for_loop (S (hexPointsPerLayer layer))
    (fun i => i <? hexPointsPerLayer layer)%nat S
    (fun i points => push points (roundPoint (hexXY size layers layer i)))
    0%nat points
  = points ++ map (fun i => roundPoint (hexXY size layers layer i))
                  (seq 0 (hexPointsPerLayer layer)).
Proof.
  rewrite (for_loop_range _ _ (hexPointsPerLayer layer)) by
    (try lia; try (intros j Hj; apply Nat.ltb_lt; lia);
     apply Nat.ltb_ge; lia).
  now rewrite fold_left_push.
Qed.

(** The rings come from a table of 59 entries (1, 6, 12, ..., 348) and
    the loop stops at the end of the table: [layers] >= 1 rings give
    3 m (m - 1) + 1 points for m = min(layers, 59), whatever [n] is;
    never more than 3 * 59 * 58 + 1 = 10267. *)
Theorem hexLattice_point_count (n : nat) (size : R) (layers : nat) :
  (1 <= layers)%nat ->
  length (generateHexLatticePoints n size layers)
  = (3 * Nat.min layers 59 * (Nat.min layers 59 - 1) + 1)%nat
  /\ (length (generateHexLatticePoints n size layers) <= 3 * 59 * 58 + 1)%nat.
Proof.
  intro HL.
  assert (Hlen : length (generateHexLatticePoints n size layers)
                 = (3 * Nat.min layers 59 * (Nat.min layers 59 - 1) + 1)%nat).
  { unfold generateHexLatticePoints.
    rewrite (for_loop_range _ _ (Nat.min layers 59)).
    - rewrite (fold_left_append
                 (fun layer => map (fun i => roundPoint (hexXY size layers layer i))
                                   (seq 0 (hexPointsPerLayer layer)))).
      + cbn [app]. rewrite length_flat_map_sum.
        rewrite <- (hex_ring_sum (Nat.min layers 59)) by lia.
        f_equal. apply map_ext. intro layer.
        now rewrite length_map, length_seq.
      + intros k a. apply hex_inner_loop.
    - lia.
    - intros j Hj. cbn [Nat.add].
      apply andb_true_iff. split; [apply Nat.ltb_lt; lia|].
      apply negb_true_iff, Nat.eqb_neq.
      apply hexPointsPerLayer_spec. lia.
    - cbn [Nat.add]. apply andb_false_iff.
      destruct (Nat.le_gt_cases layers 59) as [Hle|Hgt].
      + left. apply Nat.ltb_ge. lia.
      + right. apply negb_false_iff, Nat.eqb_eq.
        apply hexPointsPerLayer_spec. lia. }
  split; [exact Hlen|].
  rewrite Hlen.
  assert (H1 : (Nat.min layers 59 <= 59)%nat) by lia.
  assert (H2 : (Nat.min layers 59 - 1 <= 58)%nat) by lia.
  pose proof (Nat.mul_le_mono _ _ _ _ H1 H2) as H3.
  revert H3. generalize (Nat.min layers 59 - 1)%nat (Nat.min layers 59).
  intros q m H3. nia.
Qed.

Lemma hexLattice_point_count_witness :
  length (generateHexLatticePoints 50 500 5)
  = (3 * Nat.min 5 59 * (Nat.min 5 59 - 1) + 1)%nat
  /\ (length (generateHexLatticePoints 50 500 5) <= 3 * 59 * 58 + 1)%nat.
Proof. apply (hexLattice_point_count 50 500 5). lia. Defined.

(** ** Rounded coordinates *)

Lemma pow_10_2 : 10 ^ 2 = 100.
Proof. simpl. lra. Qed.

(** Below 10^21 the rounded value is a whole number of hundredths. *)
Lemma roundFloat_two_decimals (x : R) :
  Rabs x < 10 ^ 21 -> two_decimals (roundFloat x 2).
Proof.
  intro H. destruct (roundFloat_half_unit x 2 H) as [[z Hz] _].
  exists z. now rewrite Hz, pow_10_2.
Qed.

Lemma roundFloat_two_decimals_or_huge (x : R) :
  two_decimals (roundFloat x 2) \/ 10 ^ 21 <= Rabs (roundFloat x 2).
Proof.
  destruct (Rle_dec (10 ^ 21) (Rabs x)) as [Hbig|Hsmall].
  - right. unfold roundFloat.
    destruct (Rle_dec (10 ^ 21) (Rabs x)); [exact Hbig | contradiction].
  - left. apply roundFloat_two_decimals. lra.
Qed.

(** Inside the loop of [generateSunflowerPoints] (1 <= k <= n) the
    radius factor is in [0, 1] for every boundary count, negative ones
    included. *)
Lemma radius_in_loop (k n : nat) (b : R) :
  (1 <= k <= n)%nat -> 0 <= radius (INR k) (INR n) b <= 1.
Proof.
  intros [Hk Hkn].
  destruct (Rle_dec 0 b) as [Hb|Hb]; [now apply radius_bounds|].
  assert (H1 : 1 <= INR k) by (change 1 with (INR 1); now apply le_INR).
  assert (H2 : INR k <= INR n) by now apply le_INR.
  unfold radius. rewrite Rltb_false by lra.
  assert (Hle : INR k - 0.5 <= INR n - (b + 1) / 2) by lra.
  assert (Hnum : 0 < sqrt (INR k - 0.5)) by (apply sqrt_lt_R0; lra).
  pose proof (sqrt_le_1_alt _ _ Hle) as Hs.
  assert (Hden : 0 < sqrt (INR n - (b + 1) / 2)) by lra.
  split.
  - apply Rmult_le_pos; [lra | left; now apply Rinv_0_lt_compat].
  - apply (Rmult_le_reg_r (sqrt (INR n - (b + 1) / 2))); [exact Hden|].
    unfold Rdiv. rewrite Rmult_assoc, Rinv_l by lra. lra.
Qed.

Lemma latticeRadius_abs (size : R) (layers layer : nat) :
  (layer < layers)%nat ->
  Rabs (latticeRadius size layers layer) <= Rabs size / 2.
Proof.
  intro Hl. unfold latticeRadius.
  assert (H0 : 0 <= INR layer) by apply pos_INR.
  assert (H1 : INR layer < INR layers) by now apply lt_INR.
  assert (H2 : 0 < / (2 * INR layers)) by (apply Rinv_0_lt_compat; lra).
  unfold Rdiv at 1.
  rewrite !Rabs_mult, (Rabs_pos_eq _ H0), (Rabs_pos_eq (/ (2 * INR layers)))
    by lra.
  pose proof (Rabs_pos size) as Ha.
  apply (Rmult_le_reg_r (2 * INR layers)); [lra|].
  rewrite Rmult_assoc, Rinv_l by lra. nra.
Qed.

Lemma roundPoint_two_decimals (r theta : R) :
  Rabs r < 10 ^ 21 ->
  let p := roundPoint (r * cos theta, r * sin theta) in
  two_decimals (fst p) /\ two_decimals (snd p).
Proof.
  intro H. cbv zeta. unfold roundPoint. cbn [fst snd].
  destruct (polar_within r theta) as [Hx Hy].
  split; apply roundFloat_two_decimals; lra.
Qed.

Lemma roundPoint_checked (q : Point) :
  let p := roundPoint q in
  (roundFloat (fst p) 2 = fst p /\ roundFloat (snd p) 2 = snd p)
  /\ (two_decimals (fst p) \/ 10 ^ 21 <= Rabs (fst p))
  /\ (two_decimals (snd p) \/ 10 ^ 21 <= Rabs (snd p)).
Proof.
  cbv zeta. split; [apply roundPoint_rounded2|].
  unfold roundPoint. cbn [fst snd].
  split; apply roundFloat_two_decimals_or_huge.
Qed.

(** C9: every coordinate of every point returned by [generatePoints], in
    every mode, is a value rounded to two decimals.  Rounding it again
    gives the coordinate itself, and, measured without the code's own
    rounding function, the coordinate is a whole number of hundredths
    z / 100; the one exception of the real-number model is a magnitude
    from 10^21 on, which [toFixed] prints without rounding (a double of
    that size is a whole number, which exact reals cannot say).  No such
    coordinate exists when |size| / 2 is below 10^21, as for every size
    the control panel offers: then all coordinates are whole numbers of
    hundredths. *)
Theorem C9_coordinates_rounded (genProps : GenProps) :
  Forall (fun p =>
            (roundFloat (fst p) 2 = fst p /\ roundFloat (snd p) 2 = snd p)
            /\ (two_decimals (fst p) \/ 10 ^ 21 <= Rabs (fst p))
            /\ (two_decimals (snd p) \/ 10 ^ 21 <= Rabs (snd p)))
         (generatePoints genProps)
  /\ (Rabs (gp_size genProps) / 2 < 10 ^ 21 ->
      Forall (fun p => two_decimals (fst p) /\ two_decimals (snd p))
             (generatePoints genProps)).
Proof.
  split.
  - unfold generatePoints. cbv zeta.
    destruct (_ || _).
    + rewrite generateSunflowerPoints_map. apply Forall_forall.
      intros p Hp. apply in_map_iff in Hp as (k & <- & _).
      apply roundPoint_checked.
    + destruct (_ =? _)%string; [|constructor].
      apply Forall_forall. intros p Hp.
      apply downsample_incl in Hp.
      rewrite latticeAllPoints_rings in Hp.
      apply in_flat_map in Hp as (layer & _ & Hp).
      apply in_map_iff in Hp as (i & <- & _).
      apply roundPoint_checked.
  - intro Hsize. unfold generatePoints. cbv zeta.
    destruct (_ || _).
    + rewrite generateSunflowerPoints_map. apply Forall_forall.
      intros p Hp. apply in_map_iff in Hp as (k & <- & Hk).
      apply in_seq in Hk.
      unfold sunflowerXY. cbv zeta. apply roundPoint_two_decimals.
      pose proof (radius_in_loop k (gp_n genProps)
                    (sunflowerB (gp_n genProps) (gp_alpha genProps))
                    ltac:(lia)) as [H0 H1].
      rewrite Rabs_mult, (Rabs_pos_eq _ H0).
      unfold Rdiv at 1. rewrite Rabs_mult, (Rabs_pos_eq (/ 2)) by lra.
      pose proof (Rabs_pos (gp_size genProps)). nra.
    + destruct (_ =? _)%string; [|constructor].
      apply Forall_forall. intros p Hp.
      apply downsample_incl in Hp.
      rewrite latticeAllPoints_rings in Hp.
      apply in_flat_map in Hp as (layer & Hl & Hp).
      apply in_map_iff in Hp as (i & <- & _).
      apply in_seq in Hl.
      unfold latticeXY. cbv zeta. apply roundPoint_two_decimals.
      pose proof (latticeRadius_abs (gp_size genProps) (gp_layers genProps)
                    layer ltac:(lia)). lra.
Qed.

Lemma C9_coordinates_rounded_witness :
  Forall (fun p => two_decimals (fst p) /\ two_decimals (snd p))
         (generatePoints (mkGenProps 50 2 "lattice" 500 5 6 0)).
Proof.
  apply (C9_coordinates_rounded (mkGenProps 50 2 "lattice" 500 5 6 0)).
  simpl. rewrite Rabs_pos_eq by lra. lra.
Defined.
